(** * AIAI telemetry client: event tracker, SQL classifier, phase controller

    A shallow embedding of [frontend/src/services/eventTracker.ts] and of
    the parts of its host (timers, promises, the HTTP call of
    [services/api.ts]) that its behaviour depends on, followed by the
    state updates of the notebook and of the chart builder that call it. *)

From Stdlib Require Import ZArith NArith Lia Ascii String List Bool.
From stdpp Require Import base list strings gmap pretty.

Local Open Scope Z_scope.

(** ** JavaScript strings

    A JavaScript string is a sequence of UTF-16 code units; [length],
    [substring], [includes] and regular expressions without the [u] flag
    all work on code units. *)
Module JS.

Abbreviation jsstring := (list N).

(** A literal of the source, all of whose characters are ASCII. *)
Definition js (s : string) : jsstring :=
  (fun a => N_of_ascii a) <$> list_ascii_of_string s.

(** Upper-casing of one ASCII code unit; units outside [a-z] are kept. *)
Definition asciiUpper (c : N) : N :=
  if ((97 <=? c) && (c <=? 122))%N then (c - 32)%N else c.

Definition isAscii (s : jsstring) : Prop := Forall (fun c => (c < 128)%N) s.

(** [s.startsWith(pat)] on code units. *)
Fixpoint startsWith (s pat : jsstring) {struct pat} : bool :=
  match pat, s with
  | [], _ => true
  | _ :: _, [] => false
  | p :: pat', c :: s' => (c =? p)%N && startsWith s' pat'
  end.

(** [s.includes(pat)]: [pat] occurs at some index of [s]. *)
Fixpoint includes (s pat : jsstring) : bool :=
  startsWith s pat ||
  match s with
  | [] => false
  | _ :: s' => includes s' pat
  end.

(** [/p1|p2|.../.test(s)] for literal alternatives: some alternative
    occurs at some index. *)
Fixpoint regexTest (alts : list jsstring) (s : jsstring) : bool :=
  existsb (startsWith s) alts ||
  match s with
  | [] => false
  | _ :: s' => regexTest alts s'
  end.

(** One pattern character against one input unit under the [i] flag
    (no [u] flag).  Canonicalize never sends a unit of 128 or more to an
    ASCII unit, so against an ASCII pattern character only the two ASCII
    cases of the letter match. *)
Definition unitMatchesCI (p c : N) : bool := (asciiUpper c =? asciiUpper p)%N.

Fixpoint startsWithCI (s pat : jsstring) {struct pat} : bool :=
  match pat, s with
  | [], _ => true
  | _ :: _, [] => false
  | p :: pat', c :: s' => unitMatchesCI p c && startsWithCI s' pat'
  end.

(** The matches of a literal, non-empty pattern under the flags [gi],
    scanning left to right; after a match the scan resumes behind it
    ([skip] units of the match are still to be stepped over). *)
Fixpoint matchesFrom (pat : jsstring) (skip : nat) (s : jsstring)
  : list jsstring :=
  match s with
  | [] => []
  | _ :: s' =>
      match skip with
      | S k => matchesFrom pat k s'
      | O =>
          if startsWithCI s pat
          then take (length pat) s :: matchesFrom pat (length pat - 1) s'
          else matchesFrom pat 0 s'
      end
  end.

(** [s.match(/pat/gi)]: the array of matches, or [null] when there is
    none. *)
Definition matchGI (s pat : jsstring) : option (list jsstring) :=
  match matchesFrom pat 0 s with
  | [] => None
  | m => Some m
  end.

(** [s.substring(0, n)]. *)
Definition substring0 (s : jsstring) (n : nat) : jsstring := take n s.

(** Values stored in event metadata. *)
Inductive value :=
| VUndefined
| VBool (b : bool)
| VNum (z : Z)
| VStr (s : jsstring)
| VIsoTime (ms : Z)      (* [new Date().toISOString()] taken at time [ms] *)
| VUuid (n : nat).       (* the [n]-th identifier drawn from [uuidv4()] *)

End JS.
Import JS.

(** ** Event types ([EventType] of the source) *)
Inductive EventType :=
(* Session Lifecycle *)
| SESSION_START | SESSION_PAUSED | SESSION_RESUMED | PHASE_SUBMITTED
| INTERVIEW_STARTED | SESSION_COMPLETED | SESSION_ABANDONED
(* Code Editing *)
| CODE_EDIT | CODE_RUN | CODE_DELETED | CODE_RESTORED | COMMENT_ADDED
| COPY_PASTE_DETECTED
(* SQL Operations *)
| SQL_RUN | QUERY_MODIFIED | QUERY_OPTIMIZED | QUERY_SUBMITTED | SYNTAX_ERROR
| TABLE_JOINED | AGGREGATE_USED | SUBQUERY_USED | GROUPING_APPLIED
| FILTER_APPLIED | WINDOW_FUNCTION_USED
(* Execution & Results *)
| RUN_RESULT | ERROR_OCCURRED | ERROR_RESOLVED | RESULT_VALIDATED
| RESULT_COMPARED | OUTLIER_DETECTED | NULL_HANDLED
(* Data Exploration *)
| DATA_VIEW | SCHEMA_EXPLORED | TABLE_PREVIEWED | DATA_QUALITY_CHECKED
(* AI Interaction *)
| AI_PROMPT | AI_RESPONSE | AI_RESPONSE_USED | AI_CODE_COPIED
| AI_CODE_MODIFIED | AI_HINT_REQUESTED | AI_HELP_ESCALATION | HELP_DECLINED
(* Interview Phase *)
| INTERVIEW_QUESTION | INTERVIEW_ANSWER | INSIGHT_SHARED | APPROACH_EXPLAINED
| FOLLOWUP_ANSWERED
(* Problem Solving *)
| APPROACH_CHANGED | HYPOTHESIS_FORMED | VALIDATION_ATTEMPT | DEAD_END_REACHED
| BREAKTHROUGH | BACKTRACKED
(* Attention & Timing *)
| IDLE_GAP | FOCUS_LOST | FOCUS_REGAINED | PAUSE_DETECTED | RUSH_DETECTED
| TIME_WARNING_SHOWN
(* Workspace *)
| NOTEBOOK_CELL_ADDED | NOTEBOOK_CELL_DELETED | CELL_REORDERED
| RESULT_EVALUATED
(* Legacy *)
| CHART_CREATED.

(** [Record<string, any>] *)
Abbreviation Metadata := (gmap string value).

(** [interface EventData] *)
Record EventData := mkEventData {
  type : EventType;
  event_metadata : Metadata
}.

(** [interface EventCreate] of [services/api.ts]: the body posted to
    [/events]. *)
Record EventCreate := mkEventCreate {
  session_id : jsstring;
  event_type : EventType;
  req_metadata : Metadata
}.

(** ** The SQL classifier inside [trackSQLComplexity] *)
Module Classifier.

Record Complexity := mkComplexity {
  has_join : bool;
  has_aggregate : bool;
  has_subquery : bool;
  has_groupby : bool;
  has_where : bool;
  has_window : bool
}.

Section WithToUpperCase.

(** [String.prototype.toUpperCase] belongs to the JavaScript runtime and
    depends on the Unicode case tables; it is taken as given.  Where a
    fact about it is needed, it is that on an ASCII string it upper-cases
    the letters [a-z] and keeps every other unit. *)
Variable toUpperCase : jsstring -> jsstring.

(** The object literal [complexity] of [trackSQLComplexity]. *)
Definition complexity (query : jsstring) : Complexity :=
  let upperQuery := toUpperCase query in
  {| has_join := includes upperQuery (js "JOIN");
     has_aggregate :=
       regexTest [js "COUNT"; js "SUM"; js "AVG"; js "MAX"; js "MIN"]
                 upperQuery;
     has_subquery :=
       (1 <? length (default [] (matchGI query (js "SELECT"))))%nat;
     has_groupby := includes upperQuery (js "GROUP BY");
     has_where := includes upperQuery (js "WHERE");
     has_window := regexTest [js "OVER"; js "PARTITION BY"] upperQuery |}.

End WithToUpperCase.

(** [pat] occurs in [s] as a contiguous run of code units. *)
Definition occurs (pat s : jsstring) : Prop :=
  exists pre post, s = pre ++ pat ++ post.

(** The number of indices of [s] at which [pat] matches, ignoring ASCII
    case: the occurrences of the keyword counted one index at a time, not
    by the scan of [String.prototype.match]. *)
Fixpoint occurrencesCI (pat s : jsstring) : nat :=
  (if startsWithCI s pat then 1 else 0) +
  match s with
  | [] => 0
  | _ :: s' => occurrencesCI pat s'
  end.

Definition allFalse : Complexity :=
  mkComplexity false false false false false false.

(** The event types of the tags that are set, in the order in which
    [trackSQLComplexity] goes through them. *)
Definition positiveTags (c : Complexity) : list EventType :=
  (if has_join c then [TABLE_JOINED] else []) ++
  (if has_aggregate c then [AGGREGATE_USED] else []) ++
  (if has_subquery c then [SUBQUERY_USED] else []) ++
  (if has_groupby c then [GROUPING_APPLIED] else []) ++
  (if has_where c then [FILTER_APPLIED] else []) ++
  (if has_window c then [WINDOW_FUNCTION_USED] else []).

Definition SELECT : jsstring := [83; 69; 76; 69; 67; 84]%N.

(** ASCII-only upper-casing, an instance of [toUpperCase] on ASCII
    input. *)
Definition asciiToUpperCase (s : jsstring) : jsstring := asciiUpper <$> s.

End Classifier.

(** ** The telemetry client ([class EventTracker]) and its host *)
Module Tracker.

(** The fields of [class EventTracker]. *)
Record EventTracker := mkEventTracker {
  sessionId : option jsstring;        (* [string | null] *)
  eventQueue : list EventData;
  isProcessing : bool;
  lastActivityTime : Z;               (* milliseconds, from [Date.now()] *)
  idleThreshold : Z;
  idleTimer : option nat              (* timeout handle, or [undefined] *)
}.

(** The tracker together with the part of the JavaScript host it talks
    to.  [awaiting] holds the [processQueue] activations suspended at
    [await apiService.logEvent(...)], each with its local [event] and the
    request it waits for.  [sent] and [stored] are the two ends of the
    transport: every request handed to [logEvent], and the requests whose
    call resolved; a call that rejects is taken not to have reached the
    store.  [enqueued] is a history variable: every event ever pushed on
    the queue, in push order.  [uuidv4()] is a source of fresh
    identifiers, numbered in the order they are drawn. *)
Record World := mkWorld {
  tracker : EventTracker;
  timers : list (nat * Z);            (* pending timeouts: handle, due time *)
  nextHandle : nat;
  nextUuid : nat;
  awaiting : list (EventData * EventCreate);
  sent : list EventCreate;            (* requests handed to [logEvent] *)
  stored : list EventCreate;          (* requests the Event Store accepted *)
  enqueued : list EventData
}.

Definition withTracker (f : EventTracker -> EventTracker) (w : World) : World :=
  mkWorld (f (tracker w)) (timers w) (nextHandle w) (nextUuid w) (awaiting w)
          (sent w) (stored w) (enqueued w).

Definition setSessionId (v : option jsstring) (t : EventTracker) :=
  mkEventTracker v (eventQueue t) (isProcessing t) (lastActivityTime t)
                 (idleThreshold t) (idleTimer t).
Definition setEventQueue (v : list EventData) (t : EventTracker) :=
  mkEventTracker (sessionId t) v (isProcessing t) (lastActivityTime t)
                 (idleThreshold t) (idleTimer t).
Definition setIsProcessing (v : bool) (t : EventTracker) :=
  mkEventTracker (sessionId t) (eventQueue t) v (lastActivityTime t)
                 (idleThreshold t) (idleTimer t).
Definition setLastActivityTime (v : Z) (t : EventTracker) :=
  mkEventTracker (sessionId t) (eventQueue t) (isProcessing t) v
                 (idleThreshold t) (idleTimer t).
Definition setIdleTimer (v : option nat) (t : EventTracker) :=
  mkEventTracker (sessionId t) (eventQueue t) (isProcessing t)
                 (lastActivityTime t) (idleThreshold t) v.

(** The tracker as constructed at module load, at time [t0]. *)
Definition newTracker (t0 : Z) : EventTracker :=
  {| sessionId := None; eventQueue := []; isProcessing := false;
     lastActivityTime := t0; idleThreshold := 5000; idleTimer := None |}.

Definition initial (t0 : Z) : World :=
  {| tracker := newTracker t0; timers := []; nextHandle := 1; nextUuid := 0;
     awaiting := []; sent := []; stored := []; enqueued := [] |}.

(** Truthiness of [this.sessionId]: [null] and the empty string are
    falsy. *)
Definition truthy (sid : option jsstring) : bool :=
  match sid with
  | Some (_ :: _) => true
  | _ => false
  end.

(** Host timers. *)
Definition clearTimeout (h : nat) (w : World) : World :=
  mkWorld (tracker w) (filter (fun p => p.1 <> h) (timers w)) (nextHandle w)
          (nextUuid w) (awaiting w) (sent w) (stored w) (enqueued w).

Definition setTimeout (due : Z) (w : World) : nat * World :=
  (nextHandle w,
   mkWorld (tracker w) (timers w ++ [(nextHandle w, due)]) (S (nextHandle w))
           (nextUuid w) (awaiting w) (sent w) (stored w) (enqueued w)).

Definition resetIdleTimer (now : Z) (w : World) : World :=
  let w :=
    match idleTimer (tracker w) with
    | Some h => clearTimeout h w
    | None => w
    end in
  let '(h, w) := setTimeout (now + idleThreshold (tracker w)) w in
  withTracker (setIdleTimer (Some h)) w.

Definition startIdleTracking (now : Z) (w : World) : World :=
  resetIdleTimer now w.

Definition updateActivity (now : Z) (w : World) : World :=
  resetIdleTimer now (withTracker (setLastActivityTime now) w).

Definition initialize (sid : jsstring) (now : Z) (w : World) : World :=
  startIdleTracking now (withTracker (setSessionId (Some sid)) w).

(** The request built for [apiService.logEvent]. *)
Definition mkRequest (sid : jsstring) (event : EventData) : EventCreate :=
  {| session_id := sid; event_type := type event;
     req_metadata := event_metadata event |}.

Definition issue (event : EventData) (req : EventCreate) (w : World) : World :=
  mkWorld (tracker w) (timers w) (nextHandle w) (nextUuid w)
          (awaiting w ++ [(event, req)]) (sent w ++ [req]) (stored w)
          (enqueued w).

(** The [while] loop of [processQueue], run until it suspends at the
    [await] or leaves the loop; [q] is [this.eventQueue]. *)
Fixpoint whileLoop (q : list EventData) (w : World) : World :=
  match q with
  | [] => withTracker (fun t => setIsProcessing false (setEventQueue [] t)) w
  | event :: q' =>
      match sessionId (tracker w) with
      | Some (c :: sid') =>
          issue event (mkRequest (c :: sid') event)
                (withTracker (setEventQueue q') w)
      | _ => whileLoop q' w
      end
  end.

Definition processQueue (w : World) : World :=
  if (length (eventQueue (tracker w)) =? 0)%nat || isProcessing (tracker w)
  then w
  else
    let w := withTracker (setIsProcessing true) w in
    whileLoop (eventQueue (tracker w)) w.

Definition push (eventData : EventData) (w : World) : World :=
  mkWorld (setEventQueue (eventQueue (tracker w) ++ [eventData]) (tracker w))
          (timers w) (nextHandle w) (S (nextUuid w)) (awaiting w) (sent w)
          (stored w) (enqueued w ++ [eventData]).

(** [trackEvent], up to the first point where it yields to the host. *)
Definition trackEvent (now : Z) (type : EventType) (event_metadata : Metadata)
    (w : World) : World :=
  if negb (truthy (sessionId (tracker w))) then w
  else
    let eventData :=
      {| type := type;
         event_metadata :=
           <["client_id" := VUuid (nextUuid w)]>
             (<["timestamp" := VIsoTime now]> event_metadata) |} in
    let w := push eventData w in
    let w := updateActivity now w in
    if negb (isProcessing (tracker w)) then processQueue w else w.

(** The [i]-th awaited [logEvent] call settles: it resolves ([ok]) and
    the loop goes on, or rejects and the [catch] block puts the event
    back and leaves the loop. *)
Definition settle (i : nat) (ok : bool) (w : World) : option World :=
  match awaiting w !! i with
  | None => None
  | Some (event, req) =>
      let w := mkWorld (tracker w) (timers w) (nextHandle w) (nextUuid w)
                       (delete i (awaiting w)) (sent w)
                       (if ok then stored w ++ [req] else stored w)
                       (enqueued w) in
      Some (if ok
            then whileLoop (eventQueue (tracker w)) w
            else withTracker
                   (fun t => setIsProcessing false
                               (setEventQueue (event :: eventQueue t) t)) w)
  end.

(** The host runs the callback of timeout [h], which is due, and drops
    it from its table of pending timeouts. *)
Definition timeout (h : nat) (now : Z) (w : World) : option World :=
  match list_find (fun p => p.1 = h) (timers w) with
  | Some (_, (_, due)) =>
      if due <=? now
      then
        let w := clearTimeout h w in
        Some (trackEvent now IDLE_GAP
                {[ "idle_duration" := VNum (now - lastActivityTime (tracker w)) ]}
                w)
      else None
  | None => None
  end.

Definition cleanup (w : World) : World :=
  let w :=
    match idleTimer (tracker w) with
    | Some h => clearTimeout h w
    | None => w
    end in
  withTracker (fun t => setEventQueue [] (setSessionId None t)) w.

(** What can happen to the client: calls of its public methods and the
    two kinds of host callbacks. *)
Inductive Action :=
| Initialize (sessionId : jsstring)
| TrackEvent (type : EventType) (event_metadata : Metadata)
| Cleanup
| Timeout (h : nat)
| Settle (i : nat) (ok : bool).

Definition step (now : Z) (a : Action) (w : World) : option World :=
  match a with
  | Initialize sid => Some (initialize sid now w)
  | TrackEvent ty md => Some (trackEvent now ty md w)
  | Cleanup => Some (cleanup w)
  | Timeout h => timeout h now w
  | Settle i ok => settle i ok w
  end.

(** A run: actions with the time at which each happens. *)
Fixpoint run (w : World) (tr : list (Z * Action)) : option World :=
  match tr with
  | [] => Some w
  | (now, a) :: tr' =>
      match step now a w with
      | Some w' => run w' tr'
      | None => None
      end
  end.

Definition reachable (w : World) : Prop :=
  exists t0 tr, run (initial t0) tr = Some w.

(** [trackSQLComplexity]: the tags, and one [trackEvent] call for each
    tag that is set. *)
Definition snippet (query : jsstring) : Metadata :=
  {[ "query_snippet" := VStr (substring0 query 100) ]}.

Section WithToUpperCase.

Variable toUpperCase : jsstring -> jsstring.

Definition trackSQLComplexity (now : Z) (query : jsstring) (w : World)
  : Classifier.Complexity * World :=
  let complexity := Classifier.complexity toUpperCase query in
  let w := if Classifier.has_join complexity
           then trackEvent now TABLE_JOINED (snippet query) w else w in
  let w := if Classifier.has_aggregate complexity
           then trackEvent now AGGREGATE_USED (snippet query) w else w in
  let w := if Classifier.has_subquery complexity
           then trackEvent now SUBQUERY_USED (snippet query) w else w in
  let w := if Classifier.has_groupby complexity
           then trackEvent now GROUPING_APPLIED (snippet query) w else w in
  let w := if Classifier.has_where complexity
           then trackEvent now FILTER_APPLIED (snippet query) w else w in
  let w := if Classifier.has_window complexity
           then trackEvent now WINDOW_FUNCTION_USED (snippet query) w else w in
  (complexity, w).

End WithToUpperCase.

(** A run of guarded calls [if (tag) this.trackEvent(type, snippet)], the
    shape of the body of [trackSQLComplexity]. *)
Definition guardedCalls (calls : list (bool * EventType)) (now : Z)
    (query : jsstring) (w : World) : World :=
  fold_left (fun w (call : bool * EventType) => if call.1
                           then trackEvent now call.2 (snippet query) w
                           else w)
            calls w.

(** The event a request carries. *)
Definition reqEvent (r : EventCreate) : EventData :=
  {| type := event_type r; event_metadata := req_metadata r |}.

(** Events acknowledged by the store, events being delivered, events
    still queued. *)
Definition delivered (w : World) : list EventData := reqEvent <$> stored w.
Definition inFlight (w : World) : list EventData := fst <$> awaiting w.
Definition pending (w : World) : list EventData :=
  inFlight w ++ eventQueue (tracker w).

(** The event [trackEvent] builds. *)
Definition stamped (now : Z) (n : nat) (ty : EventType) (md : Metadata)
  : EventData :=
  {| type := ty;
     event_metadata :=
       <["client_id" := VUuid n]> (<["timestamp" := VIsoTime now]> md) |}.

(** The state after the push and [updateActivity] of [trackEvent]. *)
Definition afterPush (now : Z) (e : EventData) (w : World) : World :=
  mkWorld
    (mkEventTracker (sessionId (tracker w)) (eventQueue (tracker w) ++ [e])
                    (isProcessing (tracker w)) now (idleThreshold (tracker w))
                    (Some (nextHandle w)))
    [(nextHandle w, now + idleThreshold (tracker w))]
    (S (nextHandle w)) (S (nextUuid w)) (awaiting w) (sent w) (stored w)
    (enqueued w ++ [e]).

(** At most one timeout is pending and it is the one [idleTimer] holds. *)
Definition timersOk (w : World) : Prop :=
  timers w = [] \/
  exists h due, timers w = [(h, due)] /\ idleTimer (tracker w) = Some h /\
                (h < nextHandle w)%nat.

(** At most one [processQueue] loop exists, and [isProcessing] tells
    whether it does. *)
Definition singleLoop (w : World) : Prop :=
  (isProcessing (tracker w) = true /\ exists x, awaiting w = [x]) \/
  (isProcessing (tracker w) = false /\ awaiting w = []).

Definition clientId (e : EventData) : option value :=
  event_metadata e !! "client_id".

(** What holds in every state the client can reach. *)
Record Inv (w : World) : Prop := mkInv {
  inv_timers : timersOk w;
  inv_loop : singleLoop w;
  inv_fifo : delivered w ++ pending w `sublist_of` enqueued w;
  inv_ids : clientId <$> enqueued w
            = (fun n => Some (VUuid n)) <$> seq 0 (nextUuid w);
  inv_req : forall x, x ∈ awaiting w -> reqEvent x.2 = x.1;
  inv_threshold : idleThreshold (tracker w) = 5000
}.

(** Sample runs. *)
Definition sessionA : jsstring := js "session-A".
Definition sessionB : jsstring := js "session-B".

(** One event tracked and in flight. *)
Definition oneInFlight : list (Z * Action) :=
  [(0, Initialize sessionA); (100, TrackEvent CODE_RUN ∅)].

(** Three events tracked; the first delivery fails and is retried. *)
Definition retryRun : list (Z * Action) :=
  [(0, Initialize sessionA); (100, TrackEvent CODE_RUN ∅);
   (150, TrackEvent CODE_EDIT ∅); (200, Settle 0 false);
   (300, TrackEvent SQL_RUN ∅); (400, Settle 0 true)].

(** A delivery fails under the first session; the client is then bound to
    a second session and tracks one more event. *)
Definition rebindRun : list (Z * Action) :=
  [(0, Initialize sessionA); (100, TrackEvent CODE_RUN ∅);
   (200, Settle 0 false);
   (1000, Initialize sessionB); (1100, TrackEvent CODE_EDIT ∅);
   (1200, Settle 0 true)].

(** No call of [trackEvent] from outside at all: the client is bound and
    then left alone for ten seconds. *)
Definition idleRun : list (Z * Action) :=
  [(0, Initialize sessionA); (5000, Timeout 1); (10000, Timeout 2)].

(** The client bound, used, and torn down again. *)
Definition teardownRun : list (Z * Action) :=
  [(0, Initialize sessionA); (100, TrackEvent CODE_RUN ∅); (900, Cleanup)].

Definition worldAfter (tr : list (Z * Action)) : World :=
  default (initial 0) (run (initial 0) tr).

End Tracker.

(** ** The session phase controller *)
Module PhaseController.

(** Modelled from the spec: the phases of a session, which the server
    keeps; the frontend only declares [phase?: string]. *)
Inductive Phase := coding | interview | completed.

(** Modelled from the spec: the session status. *)
Inductive Status := active | status_completed | abandoned.

(** Modelled from the spec: the error of the phase controller. *)
Inductive Error := InvalidTransition.

(** Modelled from the spec: the Session record of its data model, as far
    as the phase controller reads or writes it. *)
Record Session := mkSession {
  status : Status;
  phase : Phase;
  submitted_at : option Z
}.

(** Modelled from the spec: what [submit] can change, the session and
    the event log of the Event Store. *)
Record State := mkState {
  session : Session;
  event_log : list EventData
}.

(** Modelled from the spec: [submit(session)] of the phase controller,
    which runs on the server; the frontend holds no code of it.  It is
    valid only in phase [coding]; then it sets the phase to [interview],
    stamps [submitted_at], and logs [PHASE_SUBMITTED], [INTERVIEW_STARTED]
    and the first [INTERVIEW_QUESTION] (an empty question when the
    question service fails).  In any other phase it fails with
    [InvalidTransition] and touches nothing. *)
Definition submit (now : Z) (firstQuestion : option jsstring) (st : State)
  : (Error + unit) * State :=
  match phase (session st) with
  | coding =>
      (inr tt,
       {| session := {| status := status (session st);
                        phase := interview;
                        submitted_at := Some now |};
          event_log :=
            event_log st ++
            [ mkEventData PHASE_SUBMITTED ∅;
              mkEventData INTERVIEW_STARTED ∅;
              mkEventData INTERVIEW_QUESTION
                {[ "question" := VStr (default [] firstQuestion) ]} ] |})
  | _ => (inl InvalidTransition, st)
  end.

End PhaseController.

(** ** Runs that keep a session bound *)
Module TrackerRuns.
Import Tracker.

(** An action that cannot unbind the session: anything but [cleanup()]
    and [initialize("")]. *)
Definition keepsSession (a : Action) : bool :=
  match a with
  | Cleanup => false
  | Initialize [] => false
  | _ => true
  end.

(** The queue is stalled: events are waiting, a session is bound, and no
    delivery loop is running (the state a rejected delivery leaves). *)
Definition stalled (w : World) : Prop :=
  truthy (sessionId (tracker w)) = true /\
  isProcessing (tracker w) = false /\
  eventQueue (tracker w) <> [].

(** A call of [trackEvent] or a firing timeout: what can still happen to
    a client that has been torn down and is not bound again. *)
Definition trackOrTimeout (a : Action) : bool :=
  match a with
  | TrackEvent _ _ => true
  | Timeout _ => true
  | _ => false
  end.

(** Every request sent names a session, and what the store holds or is
    about to receive was sent, in sending order. *)
Definition transportOk (w : World) : Prop :=
  Forall (fun r => session_id r <> []) (sent w) /\
  stored w ++ (snd <$> awaiting w) `sublist_of` sent w.

(** The history equals acknowledged ++ in flight ++ queued, and a session
    is bound unless nothing was ever tracked. *)
Definition lossless (w : World) : Prop :=
  enqueued w = delivered w ++ pending w /\
  (truthy (sessionId (tracker w)) = true \/ enqueued w = []).

End TrackerRuns.

(** ** The typed tracking methods of [class EventTracker] *)
Module TrackerApi.
Import Tracker.

(** [s.length], in code units. *)
Definition jsLength (s : jsstring) : Z := Z.of_nat (length s).

(** [s.split(sep)] for a separator of one code unit: the pieces between
    the separators, empty pieces included. *)
Fixpoint split (sep : N) (s : jsstring) : list jsstring :=
  match s with
  | [] => [[]]
  | c :: s' =>
      if (c =? sep)%N then [] :: split sep s'
      else match split sep s' with
           | piece :: pieces => (c :: piece) :: pieces
           | [] => [[c]]
           end
  end.

(** [pieces.join(sep)] for the same separator. *)
Fixpoint join (sep : N) (pieces : list jsstring) : jsstring :=
  match pieces with
  | [] => []
  | [piece] => piece
  | piece :: rest => piece ++ sep :: join sep rest
  end.

(** The number of code units of [s] equal to [c]. *)
Definition countUnit (c : N) (s : jsstring) : nat :=
  length (filter (fun x => x = c) s).

(** The code unit of ['\n']. *)
Definition newline : N := 10%N.

(** Truthiness of an optional string: [undefined] and [''] are falsy. *)
Definition truthyString (s : option jsstring) : bool :=
  match s with
  | Some (_ :: _) => true
  | _ => false
  end.

(** An optional string as a metadata value. *)
Definition optionalString (s : option jsstring) : value :=
  match s with
  | Some s => VStr s
  | None => VUndefined
  end.

Definition trackCodeEdit (now : Z) (code language : jsstring) (w : World)
  : World :=
  trackEvent now CODE_EDIT
    {[ "code_length" := VNum (jsLength code);
       "language" := VStr language;
       "lines" := VNum (Z.of_nat (length (split newline code))) ]} w.

Definition trackCodeRun (now : Z) (code language : jsstring) (w : World)
  : World :=
  trackEvent now CODE_RUN
    {[ "code_length" := VNum (jsLength code);
       "language" := VStr language;
       "lines" := VNum (Z.of_nat (length (split newline code))) ]} w.

(** [output?.length || 0] is the length, or 0 for a missing output. *)
Definition trackRunResult (now : Z) (success : bool)
    (output error : option jsstring) (w : World) : World :=
  trackEvent now RUN_RESULT
    {[ "success" := VBool success;
       "output_length" := VNum (match output with
                                | Some s => jsLength s
                                | None => 0
                                end);
       "has_error" := VBool (truthyString error);
       "error_message" := optionalString error ]} w.

(** [{ error_message: error, ...context }]: the keys of [context] are
    written last and win. *)
Definition trackError (now : Z) (error : jsstring) (context : option Metadata)
    (w : World) : World :=
  trackEvent now ERROR_OCCURRED
    (default ∅ context ∪ {[ "error_message" := VStr error ]}) w.

End TrackerApi.

(** ** The notebook ([NotebookContainer]) *)
Module Notebook.
Import Tracker TrackerApi.

Inductive Language := python | sql.

Definition languageName (l : Language) : jsstring :=
  match l with
  | python => js "python"
  | sql => js "sql"
  end.

(** [interface Cell] *)
Record Cell := mkCell {
  id : jsstring;
  code : jsstring;
  language : Language;
  output : jsstring;
  error : jsstring;
  executionCount : option Z;
  rows : option (list Metadata);
  columnNames : option (list jsstring)
}.

(** The state [cells] starts with. *)
Definition initialCells : list Cell :=
  [ {| id := js "1";
       code := js "-- Write your SQL query here" ++ [newline]
               ++ js "SELECT * FROM customers LIMIT 5;";
       language := sql; output := []; error := [];
       executionCount := None; rows := None; columnNames := None |} ].

(** [n.toString()] for an integer [n]: its decimal digits. *)
Definition toString (n : Z) : jsstring := js (pretty n).

(** [cells.findIndex(c => c.id === target)]: the first index, or -1. *)
Definition findIndex (target : jsstring) (cells : list Cell) : Z :=
  match list_find (fun c => id c = target) cells with
  | Some (i, _) => Z.of_nat i
  | None => -1
  end.

(** [a.splice(start, 0, x)] on a copy, for [0 <= start]: [x] is put in
    front of index [start], or at the end when [start] is past it. *)
Definition spliceInsert {A} (start : Z) (x : A) (l : list A) : list A :=
  take (Z.to_nat start) l ++ [x] ++ drop (Z.to_nat start) l.

(** The cell [addCell] creates at time [now]. *)
Definition newCell (now : Z) : Cell :=
  {| id := toString now; code := js "-- SQL query"; language := sql;
     output := []; error := []; executionCount := None;
     rows := None; columnNames := None |}.

(** The new value of [cells] set by [addCell(afterId)]; a missing or
    empty [afterId] is falsy. *)
Definition addCell (now : Z) (afterId : option jsstring) (cells : list Cell)
  : list Cell :=
  match afterId with
  | Some (c :: s) =>
      let index := findIndex (c :: s) cells in
      spliceInsert (index + 1) (newCell now) cells
  | _ => cells ++ [newCell now]
  end.

(** The new value of [cells] after [deleteCell(id)]. *)
Definition deleteCell (target : jsstring) (cells : list Cell) : list Cell :=
  if (1 <? length cells)%nat
  then filter (fun c => id c <> target) cells
  else cells.

Definition withCode (newCode : jsstring) (c : Cell) : Cell :=
  mkCell (id c) newCode (language c) (output c) (error c) (executionCount c)
         (rows c) (columnNames c).

(** [cells.find(c => c.id === target)]. *)
Definition findCell (target : jsstring) (cells : list Cell) : option Cell :=
  snd <$> list_find (fun c => id c = target) cells.

(** The new value of [cells] set by [updateCellCode(id, code)]. *)
Definition setCellCode (target newCode : jsstring) (cells : list Cell)
  : list Cell :=
  (fun c => if decide (id c = target) then withCode newCode c else c)
    <$> cells.

(** [updateCellCode(id, code)]: the new value of [cells], and the
    tracker after the [trackCodeEdit] call made when the cell exists. *)
Definition updateCellCode (now : Z) (target newCode : jsstring)
    (cells : list Cell) (w : World) : list Cell * World :=
  (setCellCode target newCode cells,
   match findCell target cells with
   | Some cell => trackCodeEdit now newCode (languageName (language cell)) w
   | None => w
   end).

(** What the user can do to the list of cells. *)
Inductive Edit :=
| AddCell (now : Z) (afterId : option jsstring)
| DeleteCell (target : jsstring)
| UpdateCellCode (target newCode : jsstring).

Definition applyEdit (e : Edit) (cells : list Cell) : list Cell :=
  match e with
  | AddCell now afterId => addCell now afterId cells
  | DeleteCell target => deleteCell target cells
  | UpdateCellCode target newCode => setCellCode target newCode cells
  end.

Definition applyEdits (es : list Edit) (cells : list Cell) : list Cell :=
  fold_left (fun cells e => applyEdit e cells) es cells.

(** Every [AddCell] of the sequence happens at a time whose decimal
    string is not the id of a cell that is there at that moment. *)
Fixpoint freshEdits (cells : list Cell) (es : list Edit) : Prop :=
  match es with
  | [] => True
  | e :: es' =>
      match e with
      | AddCell now _ => toString now ∉ id <$> cells
      | _ => True
      end /\ freshEdits (applyEdit e cells) es'
  end.

(** The part of [executeCell] that runs when the request fails: the two
    tracker calls of the [catch] block, for the cell found at call time. *)
Definition executeCellRejected (now : Z) (cell : Cell)
    (errorMessage : jsstring) (w : World) : World :=
  let w := trackError now errorMessage
             (Some {[ "code_snippet" := VStr (code cell) ]}) w in
  trackRunResult now false None (Some errorMessage) w.

Section WithToUpperCase.

Variable toUpperCase : jsstring -> jsstring.

(** The tracker calls of [executeCell] after the request has resolved
    with output [responseOutput]. *)
Definition executeCellResolved (now : Z) (cell : Cell)
    (responseOutput : option jsstring) (w : World) : World :=
  let w := match language cell with
           | sql => (trackSQLComplexity toUpperCase now (code cell) w).2
           | python => w
           end in
  trackRunResult now true responseOutput None w.

End WithToUpperCase.

End Notebook.

(** ** The chart builder ([ChartBuilder]) *)
Module ChartBuilder.

Inductive ChartType := bar | line | pie.

(** [prev.includes(col)] on an array of strings. *)
Definition arrayIncludes (prev : list jsstring) (col : jsstring) : bool :=
  bool_decide (col ∈ prev).

(** The new value of [yColumns] set by [toggleYColumn(col)]. *)
Definition toggleYColumn (chartType : ChartType) (col : jsstring)
    (prev : list jsstring) : list jsstring :=
  match chartType with
  | pie => [col]
  | _ =>
      if arrayIncludes prev col
      then filter (fun c => c <> col) prev
      else prev ++ [col]
  end.

End ChartBuilder.

(** ** Facts about the classifier *)
Module ClassifierFacts.
Import Classifier.

Lemma startsWith_spec pat : forall s,
  startsWith s pat = true <-> exists post, s = pat ++ post.
Proof.
  induction pat as [|p pat IH]; intros s; simpl.
  - split; [intros _; exists s; reflexivity | reflexivity].
  - destruct s as [|c s]; simpl.
    + split; [discriminate | intros (post & H); discriminate].
    + rewrite andb_true_iff, N.eqb_eq, IH. split.
      * intros (-> & post & ->). eauto.
      * intros (post & [= -> ->]). eauto.
Qed.

Lemma includes_spec pat s : includes s pat = true <-> occurs pat s.
Proof.
  unfold occurs. induction s as [|c s IH].
  - simpl. rewrite orb_false_r, startsWith_spec. split.
    + intros (post & H). exists [], post. exact H.
    + intros (pre & post & H). destruct pre; [eauto | discriminate].
  - cbn [includes]. rewrite orb_true_iff, startsWith_spec, IH. split.
    + intros [(post & H) | (pre & post & ->)].
      * exists [], post. exact H.
      * exists (c :: pre), post. reflexivity.
    + intros (pre & post & H). destruct pre as [|c' pre].
      * left. eauto.
      * right. injection H as -> ->. eauto.
Qed.

Lemma regexTest_spec alts s :
  regexTest alts s = true <-> exists pat, pat ∈ alts /\ occurs pat s.
Proof.
  assert (Hex : forall t, existsb (startsWith t) alts = true <->
                          exists pat, pat ∈ alts /\ exists post, t = pat ++ post).
  { intros t. rewrite existsb_exists. split.
    - intros (pat & Hin & H). exists pat. rewrite list_elem_of_In.
      split; [exact Hin | apply startsWith_spec, H].
    - intros (pat & Hin & H). exists pat. rewrite <- list_elem_of_In.
      split; [exact Hin | apply startsWith_spec, H]. }
  unfold occurs. induction s as [|c s IH].
  - simpl. rewrite orb_false_r, Hex. split.
    + intros (pat & Hin & post & H). exists pat. split; [exact Hin|].
      exists [], post. exact H.
    + intros (pat & Hin & pre & post & H). exists pat. split; [exact Hin|].
      destruct pre; [eauto | discriminate].
  - cbn [regexTest]. rewrite orb_true_iff, Hex, IH. split.
    + intros [(pat & Hin & post & H) | (pat & Hin & pre & post & ->)].
      * exists pat. split; [exact Hin|]. exists [], post. exact H.
      * exists pat. split; [exact Hin|]. exists (c :: pre), post. reflexivity.
    + intros (pat & Hin & pre & post & H). destruct pre as [|c' pre].
      * left. exists pat. eauto.
      * right. injection H as -> ->. exists pat. eauto.
Qed.

(** The scan of [match] steps over [k] units without looking at them. *)
Lemma matchesFrom_skip pat : forall k s,
  matchesFrom pat k s = matchesFrom pat 0 (drop k s).
Proof.
  induction k as [|k IH]; intros s.
  - rewrite drop_0. reflexivity.
  - destruct s as [|c s]; [reflexivity|]. simpl. apply IH.
Qed.

Lemma js_SELECT : js "SELECT" = SELECT.
Proof. reflexivity. Qed.

(** [SELECT] does not overlap itself: where it matches, it matches at
    none of the next five indices. *)
Lemma SELECT_no_overlap c s :
  startsWithCI (c :: s) SELECT = true ->
  occurrencesCI SELECT s = occurrencesCI SELECT (drop 5 s).
Proof.
  unfold SELECT. cbn [startsWithCI].
  destruct s as [|c1 [|c2 [|c3 [|c4 [|c5 r]]]]];
    rewrite ?andb_false_r; try discriminate.
  rewrite !andb_true_iff. unfold unitMatchesCI. rewrite !N.eqb_eq.
  intros (_ & H1 & H2 & H3 & H4 & H5 & _).
  cbn [drop occurrencesCI startsWithCI]. unfold unitMatchesCI.
  rewrite H1, H2, H3, H4, H5. reflexivity.
Qed.

Lemma matchesFrom_count_SELECT n : forall s,
  (length s <= n)%nat ->
  length (matchesFrom SELECT 0 s) = occurrencesCI SELECT s.
Proof.
  induction n as [|n IH]; intros s Hn.
  - destruct s; [reflexivity | simpl in Hn; lia].
  - destruct s as [|c s]; [reflexivity|].
    cbn [matchesFrom occurrencesCI].
    destruct (startsWithCI (c :: s) SELECT) eqn:Hm.
    + cbn [length]. rewrite matchesFrom_skip, IH.
      * rewrite (SELECT_no_overlap c s Hm). reflexivity.
      * rewrite length_drop. simpl in Hn. simpl. lia.
    + rewrite IH by (simpl in Hn; lia). reflexivity.
Qed.

Lemma match_length s pat :
  length (default [] (matchGI s pat)) = length (matchesFrom pat 0 s).
Proof. unfold matchGI. destruct (matchesFrom pat 0 s); reflexivity. Qed.

Lemma has_subquery_count toUpperCase query :
  has_subquery (complexity toUpperCase query)
  = (1 <? occurrencesCI (js "SELECT") query)%nat.
Proof.
  unfold complexity. cbn [has_subquery].
  rewrite match_length, js_SELECT.
  rewrite (matchesFrom_count_SELECT (length query)) by lia. reflexivity.
Qed.

Lemma isAscii_check (s : jsstring) :
  forallb (fun c => (c <? 128)%N) s = true -> isAscii s.
Proof.
  rewrite forallb_forall. intros H. apply Forall_forall. intros c Hc.
  apply N.ltb_lt, H, list_elem_of_In, Hc.
Qed.

Lemma includes_false pat s : ~ occurs pat s -> includes s pat = false.
Proof.
  intros H. apply not_true_is_false. intros E. apply H, includes_spec, E.
Qed.

Lemma regexTest_false alts s :
  (forall pat, pat ∈ alts -> ~ occurs pat s) -> regexTest alts s = false.
Proof.
  intros H. apply not_true_is_false. intros E.
  apply regexTest_spec in E as (pat & Hin & Ho). exact (H pat Hin Ho).
Qed.

(** C9: the subquery tag is the multiple-query-start heuristic.  For every
    input text, [has_subquery] is true exactly when the keyword SELECT,
    in any mix of ASCII upper and lower case, occurs at more than one
    index of the text. *)
Theorem has_subquery_iff_multiple_select toUpperCase query :
  has_subquery (complexity toUpperCase query) = true <->
  (1 < occurrencesCI (js "SELECT") query)%nat.
Proof. rewrite has_subquery_count. apply Nat.ltb_lt. Qed.

(** C8: the two sample classifications of the specification.  A plain
    [SELECT * FROM t] sets no tag; the join/count/group-by query sets
    [has_join], [has_aggregate] and [has_groupby] and leaves
    [has_subquery] unset. *)
Theorem classify_examples toUpperCase :
  (forall s, isAscii s -> toUpperCase s = asciiUpper <$> s) ->
  complexity toUpperCase (js "SELECT * FROM t") = allFalse /\
  let c :=
    complexity toUpperCase
      (js "SELECT c.name, COUNT(o.id) FROM c LEFT JOIN o ON c.id=o.cid GROUP BY c.name HAVING COUNT(o.id)>5") in
  has_join c = true /\ has_aggregate c = true /\ has_groupby c = true /\
  has_subquery c = false.
Proof.
  intros Hup. unfold complexity.
  rewrite !Hup by (apply isAscii_check; vm_compute; reflexivity).
  vm_compute. repeat split.
Qed.

Lemma classify_examples_witness :
  complexity asciiToUpperCase (js "SELECT * FROM t") = allFalse /\
  let c :=
    complexity asciiToUpperCase
      (js "SELECT c.name, COUNT(o.id) FROM c LEFT JOIN o ON c.id=o.cid GROUP BY c.name HAVING COUNT(o.id)>5") in
  has_join c = true /\ has_aggregate c = true /\ has_groupby c = true /\
  has_subquery c = false.
Proof.
  apply (classify_examples asciiToUpperCase). intros s _. reflexivity.
Defined.

(** C7: the tags are a pure, total function of the input text.  The
    tags returned by [trackSQLComplexity] are [complexity query] whatever
    the time and the state of the client, so two calls on the same text
    agree; the function is defined on every string; a tag whose pattern
    does not occur is [false]; and the empty text sets no tag. *)
Theorem complexity_pure_total toUpperCase :
  (forall s, isAscii s -> toUpperCase s = asciiUpper <$> s) ->
  forall query,
    let c := complexity toUpperCase query in
    let upperQuery := toUpperCase query in
    (forall now1 now2 w1 w2,
        (Tracker.trackSQLComplexity toUpperCase now1 query w1).1 = c /\
        (Tracker.trackSQLComplexity toUpperCase now1 query w1).1
        = (Tracker.trackSQLComplexity toUpperCase now2 query w2).1) /\
    (~ occurs (js "JOIN") upperQuery -> has_join c = false) /\
    ((forall pat,
         pat ∈ [js "COUNT"; js "SUM"; js "AVG"; js "MAX"; js "MIN"] ->
         ~ occurs pat upperQuery) -> has_aggregate c = false) /\
    (occurrencesCI (js "SELECT") query = 0%nat -> has_subquery c = false) /\
    (~ occurs (js "GROUP BY") upperQuery -> has_groupby c = false) /\
    (~ occurs (js "WHERE") upperQuery -> has_where c = false) /\
    ((forall pat, pat ∈ [js "OVER"; js "PARTITION BY"] ->
                  ~ occurs pat upperQuery) -> has_window c = false) /\
    complexity toUpperCase [] = allFalse.
Proof.
  intros Hup query c upperQuery. repeat split.
  - apply includes_false.
  - apply regexTest_false.
  - intros H. subst c. rewrite has_subquery_count, H. reflexivity.
  - apply includes_false.
  - apply includes_false.
  - apply regexTest_false.
  - unfold complexity. rewrite Hup by constructor. reflexivity.
Qed.

Lemma complexity_pure_total_witness :
  let query := js "select 1" in
  (Tracker.trackSQLComplexity asciiToUpperCase 0 query (Tracker.initial 0)).1
  = (Tracker.trackSQLComplexity asciiToUpperCase 7 query
       (Tracker.worldAfter Tracker.retryRun)).1 /\
  complexity asciiToUpperCase [] = allFalse.
Proof.
  pose proof (complexity_pure_total asciiToUpperCase
                (fun s _ => eq_refl) (js "select 1")) as H.
  cbv zeta in H.
  destruct H as (Hdet & _ & _ & _ & _ & _ & _ & Hnil).
  split; [|exact Hnil].
  apply (Hdet 0 7 (Tracker.initial 0) (Tracker.worldAfter Tracker.retryRun)).
Defined.

End ClassifierFacts.

(** ** Invariants of the telemetry client *)
Module TrackerFacts.
Import Tracker.

Ltac fields :=
  unfold issue, push, clearTimeout, setTimeout, delivered, pending, inFlight,
    withTracker in *;
  unfold setSessionId, setEventQueue, setIsProcessing, setLastActivityTime,
    setIdleTimer in *;
  cbn [tracker timers nextHandle nextUuid awaiting sent stored enqueued
       sessionId eventQueue isProcessing lastActivityTime idleThreshold
       idleTimer fst snd] in *.

Ltac armed :=
  right; do 2 eexists; split; [reflexivity|]; split; [reflexivity|];
  fields; lia.

Ltac open_world w :=
  let t := fresh "t" in
  destruct w as [t ? ? ? ? ? ? ?]; destruct t; fields.

Lemma sublist_snoc {A} (D P E : list A) (e : A) :
  D ++ P `sublist_of` E -> D ++ (P ++ [e]) `sublist_of` E ++ [e].
Proof.
  intros H. rewrite app_assoc. apply sublist_app; [exact H | reflexivity].
Qed.

Lemma filter_own_handle (h : nat) (due : Z) :
  filter (fun p : nat * Z => p.1 <> h) [(h, due)] = [].
Proof.
  rewrite filter_cons_False; [reflexivity|].
  simpl. intros H. apply H. reflexivity.
Qed.

Lemma resetIdleTimer_eq now w :
  timersOk w ->
  resetIdleTimer now w =
  mkWorld (setIdleTimer (Some (nextHandle w)) (tracker w))
          [(nextHandle w, now + idleThreshold (tracker w))]
          (S (nextHandle w)) (nextUuid w) (awaiting w) (sent w) (stored w)
          (enqueued w).
Proof.
  intros Hok. unfold resetIdleTimer, timersOk in *. open_world w.
  destruct Hok as [-> | (h & due & -> & -> & _)].
  - destruct idleTimer0; fields; reflexivity.
  - fields. rewrite filter_own_handle. reflexivity.
Qed.

Lemma whileLoop_truthy c sid e q w :
  sessionId (tracker w) = Some (c :: sid) ->
  whileLoop (e :: q) w =
  issue e (mkRequest (c :: sid) e) (withTracker (setEventQueue q) w).
Proof. intros H. simpl. rewrite H. reflexivity. Qed.

Lemma whileLoop_falsy q w :
  truthy (sessionId (tracker w)) = false ->
  whileLoop q w =
  withTracker (fun t => setIsProcessing false (setEventQueue [] t)) w.
Proof.
  intros H. induction q as [|e q IH]; simpl; [reflexivity|].
  destruct (sessionId (tracker w)) as [[|c sid]|]; simpl in H;
    try discriminate; exact IH.
Qed.

Lemma truthy_inv sid :
  truthy sid = true -> exists c s, sid = Some (c :: s).
Proof. destruct sid as [[|c s]|]; simpl; try discriminate; eauto. Qed.

Lemma reqEvent_mkRequest sid e : reqEvent (mkRequest sid e) = e.
Proof. destruct e; reflexivity. Qed.

Lemma Inv_initial t0 : Inv (initial t0).
Proof.
  split; simpl.
  - left; reflexivity.
  - right; split; reflexivity.
  - constructor.
  - reflexivity.
  - intros x Hx. inversion Hx.
  - reflexivity.
Qed.

Lemma Inv_initialize sid now w : Inv w -> Inv (initialize sid now w).
Proof.
  intros [Ht Hl Hf Hi Hr Hth]. unfold initialize, startIdleTracking.
  rewrite resetIdleTimer_eq by (open_world w; exact Ht).
  open_world w. split; fields; try assumption.
  armed.
Qed.

Lemma Inv_cleanup w : Inv w -> Inv (cleanup w).
Proof.
  intros [Ht Hl Hf Hi Hr Hth]. unfold cleanup.
  assert (Hc : timers (match idleTimer (tracker w) with
                       | Some h => clearTimeout h w | None => w end) = []).
  { destruct Ht as [E | (h & due & E & -> & _)].
    - destruct (idleTimer (tracker w)); fields; rewrite E; reflexivity.
    - fields. rewrite E. apply filter_own_handle. }
  split.
  - left. exact Hc.
  - destruct (idleTimer (tracker w)); open_world w; exact Hl.
  - destruct (idleTimer (tracker w)); open_world w;
      rewrite app_nil_r;
      (etrans; [|exact Hf]); apply sublist_app; try reflexivity;
      apply sublist_inserts_r; reflexivity.
  - destruct (idleTimer (tracker w)); open_world w; exact Hi.
  - destruct (idleTimer (tracker w)); open_world w; exact Hr.
  - destruct (idleTimer (tracker w)); open_world w; exact Hth.
Qed.

Lemma trackEvent_unbound now ty md w :
  truthy (sessionId (tracker w)) = false -> trackEvent now ty md w = w.
Proof. intros H. unfold trackEvent. rewrite H. reflexivity. Qed.

Lemma trackEvent_bound now ty md w :
  truthy (sessionId (tracker w)) = true ->
  timersOk w ->
  trackEvent now ty md w =
  let w2 := afterPush now (stamped now (nextUuid w) ty md) w in
  if isProcessing (tracker w) then w2
  else whileLoop (eventQueue (tracker w2)) (withTracker (setIsProcessing true) w2).
Proof.
  intros Hs Ht. unfold trackEvent. rewrite Hs. cbn [negb].
  unfold updateActivity. rewrite resetIdleTimer_eq.
  2:{ open_world w. exact Ht. }
  unfold afterPush, processQueue. open_world w.
  destruct isProcessing0; cbn [negb orb]; [reflexivity|].
  rewrite length_app. cbn [length]. rewrite orb_false_r.
  replace (length eventQueue0 + 1 =? 0)%nat with false; [reflexivity|].
  symmetry. apply Nat.eqb_neq. lia.
Qed.

Lemma Inv_trackEvent now ty md w : Inv w -> Inv (trackEvent now ty md w).
Proof.
  intros HI.
  destruct (truthy (sessionId (tracker w))) eqn:Hs.
  2:{ rewrite trackEvent_unbound by exact Hs. exact HI. }
  destruct HI as [Ht Hl Hf Hi Hr Hth].
  rewrite trackEvent_bound by assumption. cbn zeta.
  assert (Hids : clientId <$> enqueued w ++ [stamped now (nextUuid w) ty md]
                 = (fun n => Some (VUuid n)) <$> seq 0 (S (nextUuid w))).
  { rewrite fmap_app, Hi, seq_S, fmap_app. f_equal.
    unfold clientId, stamped; cbn. rewrite lookup_insert_eq. reflexivity. }
  destruct (truthy_inv _ Hs) as (c & sid & Hsid).
  destruct Hl as [(Hp & x & Hx) | (Hp & Hx)]; rewrite Hp.
  - (* a loop is already running: the event waits in the queue *)
    unfold afterPush. open_world w. subst. split; fields; eauto.
    + armed.
    + left; eauto.
    + apply (sublist_snoc _ (x.1 :: eventQueue0)). exact Hf.
  - (* no loop: this call starts one, which takes the head of the queue *)
    unfold afterPush. open_world w. subst.
    destruct eventQueue0 as [|e0 q]; cbn [app whileLoop]; fields;
      (split; fields; eauto; [armed | left; eauto | |]).
    + apply (sublist_snoc _ []). exact Hf.
    + intros x ->%list_elem_of_singleton. apply reqEvent_mkRequest.
    + apply (sublist_snoc _ (e0 :: q)). exact Hf.
    + intros x ->%list_elem_of_singleton. apply reqEvent_mkRequest.
Qed.

Lemma Inv_clearTimeout h w : Inv w -> Inv (clearTimeout h w).
Proof.
  intros [Ht Hl Hf Hi Hr Hth]. split; try assumption.
  unfold timersOk in *. open_world w.
  destruct Ht as [-> | (h' & due & -> & -> & Hlt)]; [left; reflexivity|].
  rewrite filter_cons, filter_nil. case_decide; [right; eauto | left; reflexivity].
Qed.

Lemma Inv_timeout h now w w' : Inv w -> timeout h now w = Some w' -> Inv w'.
Proof.
  intros HI. unfold timeout.
  destruct (list_find _ _) as [[? [? due]]|]; [|discriminate].
  destruct (due <=? now); [|discriminate].
  intros [= <-]. apply Inv_trackEvent, Inv_clearTimeout, HI.
Qed.

Lemma settle_inv i ok w w' :
  Inv w -> settle i ok w = Some w' ->
  exists event req, i = 0%nat /\ awaiting w = [(event, req)] /\
                    reqEvent req = event /\ isProcessing (tracker w) = true.
Proof.
  intros [Ht Hl Hf Hi Hr Hth]. unfold settle.
  destruct (awaiting w !! i) as [[event req]|] eqn:E; [|discriminate].
  intros _. destruct Hl as [(Hp & x & Hx) | (Hp & Hx)]; rewrite Hx in *.
  - destruct i; [|discriminate]. injection E as ->.
    exists event, req. repeat split; try assumption.
    apply (Hr (event, req)). apply list_elem_of_singleton. reflexivity.
  - discriminate.
Qed.

Lemma Inv_settle i ok w w' : Inv w -> settle i ok w = Some w' -> Inv w'.
Proof.
  intros HI Hs.
  destruct (settle_inv _ _ _ _ HI Hs) as (event & req & -> & Ha & Hq & Hp).
  destruct HI as [Ht Hl Hf Hi Hr Hth]. unfold settle in Hs. rewrite Ha in Hs.
  cbn [lookup list_lookup] in Hs. injection Hs as <-.
  open_world w. subst. cbn [delete list_delete].
  destruct ok.
  - (* resolved: the event is acknowledged and the loop goes on *)
    destruct (truthy sessionId0) eqn:Hb.
    + destruct (truthy_inv _ Hb) as (c & sid & ->).
      destruct eventQueue0 as [|e0 q]; cbn [whileLoop]; fields;
        (split; fields; eauto).
      * right; eauto.
      * rewrite fmap_app, app_nil_r. exact Hf.
      * intros x Hx. inversion Hx.
      * left; eauto.
      * rewrite fmap_app, <- app_assoc. exact Hf.
      * intros x ->%list_elem_of_singleton. apply reqEvent_mkRequest.
    + rewrite whileLoop_falsy by exact Hb. fields.
      split; fields; eauto.
      * right; eauto.
      * rewrite fmap_app, app_nil_r. etrans; [|exact Hf].
        apply sublist_app; [reflexivity|].
        apply (sublist_skip (reqEvent req)), sublist_nil_l.
      * intros x Hx. inversion Hx.
  - (* rejected: the event goes back to the head of the queue *)
    split; fields; eauto.
    + right; eauto.
    + intros x Hx. inversion Hx.
Qed.

Lemma Inv_step now a w w' : Inv w -> step now a w = Some w' -> Inv w'.
Proof.
  intros HI. destruct a; simpl.
  - intros [= <-]. apply Inv_initialize, HI.
  - intros [= <-]. apply Inv_trackEvent, HI.
  - intros [= <-]. apply Inv_cleanup, HI.
  - apply Inv_timeout, HI.
  - apply Inv_settle, HI.
Qed.

Lemma Inv_run tr : forall w w', Inv w -> run w tr = Some w' -> Inv w'.
Proof.
  induction tr as [|[now a] tr IH]; intros w w' HI; simpl.
  - intros [= <-]. exact HI.
  - destruct (step now a w) as [w1|] eqn:E; [|discriminate].
    apply IH. eapply Inv_step; eauto.
Qed.

Lemma Inv_reachable w : reachable w -> Inv w.
Proof. intros (t0 & tr & H). eapply Inv_run; [apply Inv_initial | exact H]. Qed.

Lemma NoDup_enqueued w : Inv w -> NoDup (enqueued w).
Proof.
  intros HI. apply (NoDup_fmap_1 clientId). rewrite (inv_ids _ HI).
  apply NoDup_fmap_2; [|apply NoDup_seq].
  intros n m [= ->]. reflexivity.
Qed.

Lemma NoDup_known w : Inv w -> NoDup (delivered w ++ pending w).
Proof.
  intros HI.
  exact (sublist_NoDup _ _ (NoDup_enqueued _ HI) (inv_fifo _ HI)).
Qed.

(** What a settling delivery does to a reachable state. *)
Lemma settle_reachable i ok w w' :
  Inv w -> settle i ok w = Some w' ->
  exists e, inFlight w = [e] /\
    if ok
    then delivered w' = delivered w ++ [e] /\
         (if truthy (sessionId (tracker w))
          then inFlight w' = take 1 (eventQueue (tracker w)) /\
               eventQueue (tracker w') = drop 1 (eventQueue (tracker w))
          else pending w' = [])
    else delivered w' = delivered w /\ inFlight w' = [] /\
         eventQueue (tracker w') = e :: eventQueue (tracker w).
Proof.
  intros HI Hs.
  destruct (settle_inv _ _ _ _ HI Hs) as (event & req & -> & Ha & Hq & Hp).
  unfold settle in Hs. rewrite Ha in Hs.
  cbn [lookup list_lookup] in Hs. injection Hs as <-.
  exists event. open_world w. subst. cbn [delete list_delete].
  split; [reflexivity|]. destruct ok.
  - destruct (truthy sessionId0) eqn:Hb.
    + destruct (truthy_inv _ Hb) as (c & sid & ->).
      destruct eventQueue0 as [|e0 q]; cbn [whileLoop]; fields;
        rewrite fmap_app; repeat split.
    + rewrite whileLoop_falsy by exact Hb. fields.
      rewrite fmap_app. repeat split.
  - fields. repeat split.
Qed.

Lemma whileLoop_frame q : forall w,
  let w' := whileLoop q w in
  enqueued w' = enqueued w /\ timers w' = timers w /\
  nextHandle w' = nextHandle w /\ nextUuid w' = nextUuid w /\
  stored w' = stored w /\
  sessionId (tracker w') = sessionId (tracker w) /\
  lastActivityTime (tracker w') = lastActivityTime (tracker w) /\
  idleThreshold (tracker w') = idleThreshold (tracker w) /\
  idleTimer (tracker w') = idleTimer (tracker w).
Proof.
  induction q as [|e q IH]; intros w; cbn [whileLoop].
  - open_world w. repeat split.
  - destruct (sessionId (tracker w)) as [[|c s]|] eqn:E.
    + rewrite <- E. apply IH.
    + open_world w. subst. repeat split.
    + rewrite <- E. apply IH.
Qed.

(** What [trackEvent] does to the history, the clock and the timer when
    a session is bound. *)
Lemma trackEvent_bound_effect now ty md w :
  truthy (sessionId (tracker w)) = true ->
  timersOk w ->
  let w' := trackEvent now ty md w in
  enqueued w' = enqueued w ++ [stamped now (nextUuid w) ty md] /\
  lastActivityTime (tracker w') = now /\
  timers w' = [(nextHandle w, now + idleThreshold (tracker w))] /\
  sessionId (tracker w') = sessionId (tracker w) /\
  stored w' = stored w.
Proof.
  intros Hb Ht. cbv zeta. rewrite trackEvent_bound by assumption. cbv zeta.
  destruct (isProcessing (tracker w)).
  - unfold afterPush. open_world w. repeat split.
  - match goal with |- context [whileLoop ?q ?w0] =>
      destruct (whileLoop_frame q w0) as (-> & -> & _ & _ & -> & -> & -> & _)
    end.
    unfold afterPush. open_world w. repeat split.
Qed.

(** C1: strict FIFO delivery.  In every state the client can reach, the
    events acknowledged by the store, followed by the event in flight and
    the events still queued, appear in the order in which they were
    enqueued, none of them twice.  A delivery that resolves appends the
    event in flight to the acknowledged ones and the loop takes the head
    of the queue next; a delivery that rejects acknowledges nothing and
    puts the event back at the head of the queue. *)
Theorem fifo_delivery w :
  reachable w ->
  delivered w ++ pending w `sublist_of` enqueued w /\
  NoDup (enqueued w) /\
  forall i ok w', settle i ok w = Some w' ->
    exists e, inFlight w = [e] /\
      if ok
      then delivered w' = delivered w ++ [e] /\
           (if truthy (sessionId (tracker w))
            then inFlight w' = take 1 (eventQueue (tracker w)) /\
                 eventQueue (tracker w') = drop 1 (eventQueue (tracker w))
            else pending w' = [])
      else delivered w' = delivered w /\ inFlight w' = [] /\
           eventQueue (tracker w') = e :: eventQueue (tracker w).
Proof.
  intros HI%Inv_reachable. split; [apply (inv_fifo _ HI)|].
  split; [apply NoDup_enqueued, HI|].
  intros i ok w'. apply settle_reachable, HI.
Qed.

Lemma fifo_delivery_witness :
  let w := worldAfter retryRun in
  reachable w /\
  delivered w ++ pending w `sublist_of` enqueued w /\
  NoDup (enqueued w) /\
  type <$> delivered w = [CODE_RUN] /\
  type <$> pending w = [CODE_EDIT; SQL_RUN].
Proof.
  assert (H : reachable (worldAfter retryRun)).
  { exists 0, retryRun. vm_compute. reflexivity. }
  destruct (fifo_delivery _ H) as (Hf & Hn & _).
  cbv zeta. split; [exact H|]. split; [exact Hf|]. split; [exact Hn|].
  split; vm_compute; reflexivity.
Defined.

(** C2: a failed first attempt followed by a successful second one
    delivers the event once, in its place.  With [e] in flight and a
    session bound: the rejection puts [e] back at the head of the queue
    and acknowledges nothing; the next [trackEvent] starts the loop again,
    which sends [e] first; when that resolves, [e] is appended to the
    acknowledged events, where it was not before, and everything queued
    behind it is still behind it, in order. *)
Theorem retry_delivers_once w e r t1 t2 ty md :
  reachable w ->
  awaiting w = [(e, r)] ->
  truthy (sessionId (tracker w)) = true ->
  exists w1 w3,
    settle 0 false w = Some w1 /\
    delivered w1 = delivered w /\ inFlight w1 = [] /\
    eventQueue (tracker w1) = e :: eventQueue (tracker w) /\
    run w1 [(t1, TrackEvent ty md); (t2, Settle 0 true)] = Some w3 /\
    delivered w3 = delivered w ++ [e] /\
    (e ∉ delivered w) /\
    pending w3 = eventQueue (tracker w) ++ [stamped t1 (nextUuid w) ty md].
Proof.
  intros HI%Inv_reachable Ha Hb.
  assert (Hnew : e ∉ delivered w).
  { pose proof (NoDup_known _ HI) as Hn. apply NoDup_app in Hn as (_ & Hn & _).
    intros Hin. apply (Hn e Hin). unfold pending, inFlight. rewrite Ha.
    left. }
  assert (Hq : reqEvent r = e).
  { apply (inv_req _ HI (e, r)). rewrite Ha. left. }
  pose proof (inv_timers _ HI) as Ht.
  destruct (truthy_inv _ Hb) as (c & sid & Hsid).
  assert (Hstep : forall w1,
    sessionId (tracker w1) = Some (c :: sid) -> timersOk w1 ->
    isProcessing (tracker w1) = false -> awaiting w1 = [] ->
    exists w3,
      run w1 [(t1, TrackEvent ty md); (t2, Settle 0 true)] = Some w3 /\
      (forall e0 q, eventQueue (tracker w1) = e0 :: q ->
         delivered w3 = delivered w1 ++ [e0] /\
         pending w3 = q ++ [stamped t1 (nextUuid w1) ty md])).
  { clear. intros w1 Hs Ht Hp Hw. cbn [run step].
    rewrite trackEvent_bound by (try rewrite Hs; done).
    cbv zeta. rewrite Hp. unfold afterPush.
    open_world w1. subst. fields.
    destruct eventQueue0 as [|e0 q].
    - eexists. split; [cbn; reflexivity|]. intros ? ? [=].
    - cbn [app whileLoop]. fields.
      unfold settle; fields. cbn [lookup list_lookup delete list_delete app].
      eexists. split; [reflexivity|]. intros ? ? [= <- <-].
      destruct q; cbn [app whileLoop]; fields; rewrite fmap_app;
        cbn [fmap list_fmap]; rewrite reqEvent_mkRequest;
        split; reflexivity. }
  unfold settle. rewrite Ha. cbn [lookup list_lookup delete list_delete].
  edestruct (Hstep (withTracker
                      (fun t => setIsProcessing false
                                  (setEventQueue (e :: eventQueue t) t))
                      (mkWorld (tracker w) (timers w) (nextHandle w)
                               (nextUuid w) [] (sent w) (stored w)
                               (enqueued w))))
    as (w3 & Hrun & Hres).
  { open_world w. exact Hsid. }
  { open_world w. exact Ht. }
  { reflexivity. }
  { reflexivity. }
  eexists _, w3. split; [reflexivity|].
  split; [reflexivity|]. split; [reflexivity|]. split; [reflexivity|].
  split; [exact Hrun|].
  destruct (Hres e (eventQueue (tracker w)) eq_refl) as (Hd & Hpn).
  split; [exact Hd|]. split; [exact Hnew|]. exact Hpn.
Qed.

Lemma retry_delivers_once_witness :
  let w := worldAfter oneInFlight in
  exists e r w3,
    awaiting w = [(e, r)] /\
    run w [(200, Settle 0 false); (300, TrackEvent SQL_RUN ∅);
           (400, Settle 0 true)] = Some w3 /\
    delivered w3 = delivered w ++ [e] /\ (e ∉ delivered w).
Proof.
  cbv zeta.
  assert (H : reachable (worldAfter oneInFlight)).
  { exists 0, oneInFlight. vm_compute. reflexivity. }
  eexists _, _.
  destruct (retry_delivers_once (worldAfter oneInFlight) _ _ 300 400 SQL_RUN ∅
              H eq_refl eq_refl)
    as (w1 & w3 & H1 & _ & _ & _ & H3 & Hd & Hn & _).
  exists w3. split; [reflexivity|].
  split; [|split; [exact Hd | exact Hn]].
  cbn [run step]. rewrite H1. exact H3.
Defined.

(** C3, as the specification states it, fails: [initialize] resets
    neither the queue nor the activity clock.  An event tracked under the
    first session whose delivery failed is still queued after the client
    is bound to the second session, the activity clock still shows the
    old time, and the event is then stored under the second session. *)
Lemma reinitialize_keeps_queue_counterexample :
  let e := stamped 100 0 CODE_RUN ∅ in
  exists w1 w2 w3,
    run (initial 0) [(0, Initialize sessionA); (100, TrackEvent CODE_RUN ∅);
                     (200, Settle 0 false)] = Some w1 /\
    sessionId (tracker w1) = Some sessionA /\
    enqueued w1 = [e] /\
    step 1000 (Initialize sessionB) w1 = Some w2 /\
    sessionId (tracker w2) = Some sessionB /\
    eventQueue (tracker w2) = [e] /\
    lastActivityTime (tracker w2) = 100 /\
    run w2 [(1100, TrackEvent CODE_EDIT ∅); (1200, Settle 0 true)] = Some w3 /\
    stored w3 = [mkRequest sessionB e].
Proof.
  cbv zeta. eexists _, _, _.
  split; [vm_compute; reflexivity|].
  split; [reflexivity|]. split; [reflexivity|].
  split; [vm_compute; reflexivity|].
  split; [reflexivity|]. split; [reflexivity|]. split; [reflexivity|].
  split; vm_compute; reflexivity.
Qed.

(** C3, amended: [initialize] binds the client to the given session id
    and re-arms the idle timer, and nothing else.  The queue, the delivery
    in flight, the processing flag and the activity clock are kept, so an
    event still queued is sent under the session id bound when the loop
    next reaches it.  It is [cleanup] that empties the queue and unbinds
    the session. *)
Theorem initialize_rebinds_only sid now w :
  reachable w ->
  let w' := initialize sid now w in
  sessionId (tracker w') = Some sid /\
  eventQueue (tracker w') = eventQueue (tracker w) /\
  awaiting w' = awaiting w /\
  isProcessing (tracker w') = isProcessing (tracker w) /\
  lastActivityTime (tracker w') = lastActivityTime (tracker w) /\
  timers w' = [(nextHandle w, now + 5000)] /\
  (forall e q now' ty md,
      truthy (Some sid) = true ->
      isProcessing (tracker w) = false ->
      eventQueue (tracker w) = e :: q ->
      sent (trackEvent now' ty md w') = sent w ++ [mkRequest sid e]) /\
  eventQueue (tracker (cleanup w)) = [] /\
  sessionId (tracker (cleanup w)) = None.
Proof.
  intros HI%Inv_reachable. cbv zeta.
  pose proof (Inv_initialize sid now w HI) as HI'.
  pose proof (inv_timers _ HI') as Ht'. revert Ht'.
  unfold initialize, startIdleTracking.
  rewrite resetIdleTimer_eq by (open_world w; apply (inv_timers _ HI)).
  intros Ht'. pose proof (inv_threshold _ HI) as Hth.
  repeat (split; [open_world w; try rewrite Hth; reflexivity|]).
  split.
  - intros e q now' ty md Hb Hp Hq.
    rewrite trackEvent_bound by (try exact Ht'; open_world w; exact Hb).
    destruct (truthy_inv _ Hb) as (c & s & [= ->]).
    unfold afterPush. open_world w. subst. cbn zeta. fields.
    cbn [app whileLoop]. fields. reflexivity.
  - unfold cleanup. destruct (idleTimer (tracker w)); open_world w;
      split; reflexivity.
Qed.

Lemma initialize_rebinds_only_witness :
  let w := worldAfter (take 3 rebindRun) in
  let w' := initialize sessionB 1000 w in
  type <$> eventQueue (tracker w) = [CODE_RUN] /\
  eventQueue (tracker w') = eventQueue (tracker w) /\
  lastActivityTime (tracker w') = lastActivityTime (tracker w) /\
  eventQueue (tracker (cleanup w)) = [].
Proof.
  cbv zeta.
  assert (H : reachable (worldAfter (take 3 rebindRun))).
  { exists 0, (take 3 rebindRun). vm_compute. reflexivity. }
  destruct (initialize_rebinds_only sessionB 1000 _ H)
    as (_ & Hq & _ & _ & Hl & _ & _ & Hc & _).
  split; [vm_compute; reflexivity|].
  split; [exact Hq|]. split; [exact Hl | exact Hc].
Defined.

(** C4, as the specification states it, fails: the synthetic [IDLE_GAP]
    goes through [trackEvent], which resets the activity clock and arms
    the timer again.  With the client bound at time 0 and no call from
    outside afterwards, the timer fires at 5000 and again at 10000: two
    [IDLE_GAP] events in one idle interval, the clock moved by the events
    themselves, and a third timeout pending. *)
Lemma idle_gap_repeats_counterexample :
  exists w,
    run (initial 0) idleRun = Some w /\
    (fun e => (type e, event_metadata e !! "idle_duration")) <$> enqueued w
    = [(IDLE_GAP, Some (VNum 5000)); (IDLE_GAP, Some (VNum 5000))] /\
    lastActivityTime (tracker w) = 10000 /\
    timers w = [(3%nat, 15000)].
Proof.
  eexists. split; [vm_compute; reflexivity|].
  split; [vm_compute; reflexivity|]. split; reflexivity.
Qed.

(** C4, amended: a timeout fires at most once, and at most one is
    pending.  When the idle timeout fires it was the only pending one and
    it is gone afterwards.  With a session bound, the firing enqueues one
    [IDLE_GAP] carrying the time since the last activity, and this event
    counts as activity: the activity clock is set to the firing time and a
    new timeout is armed one threshold later, so in a long idle interval
    [IDLE_GAP] is fired again every 5000 ms, never sooner.  With no session
    bound the firing enqueues nothing and arms nothing. *)
Theorem idle_timeout_fires_and_rearms h now w w' :
  reachable w ->
  timeout h now w = Some w' ->
  exists due,
    timers w = [(h, due)] /\ due <= now /\
    (forall now', timeout h now' w' = None) /\
    if truthy (sessionId (tracker w))
    then enqueued w'
         = enqueued w ++
           [stamped now (nextUuid w) IDLE_GAP
              {[ "idle_duration" := VNum (now - lastActivityTime (tracker w)) ]}] /\
         lastActivityTime (tracker w') = now /\
         timers w' = [(nextHandle w, now + 5000)] /\
         (forall h' now' w'', timeout h' now' w' = Some w'' ->
                              now + 5000 <= now')
    else w' = clearTimeout h w /\ timers w' = [].
Proof.
  intros HI%Inv_reachable. unfold timeout at 1.
  destruct (list_find _ _) as [[i [h0 due]]|] eqn:Hfind; [|discriminate].
  destruct (Z.leb_spec due now) as [Hdue|]; [|discriminate].
  intros [= <-]. exists due.
  apply list_find_Some in Hfind as (Hlook & Hh & _). cbn in Hh. subst h0.
  pose proof (inv_timers _ HI) as Ht. pose proof (inv_threshold _ HI) as Hth.
  destruct Ht as [Ht | (h1 & due1 & Ht & Hidle & Hlt)];
    rewrite Ht in Hlook; [discriminate|].
  destruct i; [|discriminate]. injection Hlook as -> ->.
  split; [exact Ht|]. split; [exact Hdue|].
  assert (Hc : timers (clearTimeout h w) = []).
  { fields. rewrite Ht. apply filter_own_handle. }
  assert (Hok : timersOk (clearTimeout h w)) by (left; exact Hc).
  destruct (truthy (sessionId (tracker w))) eqn:Hb.
  - destruct (trackEvent_bound_effect now IDLE_GAP
                {[ "idle_duration" := VNum (now - lastActivityTime (tracker w)) ]}
                (clearTimeout h w) Hb Hok) as (He & Hl & Htm & _).
    change (idleThreshold (tracker (clearTimeout h w)))
      with (idleThreshold (tracker w)) in Htm.
    rewrite Hth in Htm.
    change (lastActivityTime (tracker (clearTimeout h w)))
      with (lastActivityTime (tracker w)).
    assert (Hnone : forall h' now' w'',
      timeout h' now'
        (trackEvent now IDLE_GAP
           {[ "idle_duration" := VNum (now - lastActivityTime (tracker w)) ]}
           (clearTimeout h w)) = Some w'' ->
      h' = nextHandle w /\ now + 5000 <= now').
    { intros h' now' w''. unfold timeout. rewrite Htm.
      cbn [list_find]. case_decide as Hd; cbn [fmap option_fmap option_map];
        [|discriminate].
      cbn in Hd. subst h'. destruct (Z.leb_spec (now + 5000) now');
        [auto | discriminate]. }
    split.
    + intros now'. destruct (timeout h now' _) eqn:E; [|reflexivity].
      apply Hnone in E as (E & _). change (nextHandle (clearTimeout h w))
        with (nextHandle w) in *. lia.
    + split; [exact He|]. split; [exact Hl|]. split; [exact Htm|].
      intros h' now' w'' E. apply Hnone in E as (_ & E). exact E.
  - rewrite trackEvent_unbound by assumption.
    split; [|split; [reflexivity | exact Hc]].
    intros now'. unfold timeout. rewrite Hc. reflexivity.
Qed.

Lemma idle_timeout_fires_and_rearms_witness :
  let w := worldAfter (take 1 idleRun) in
  exists w',
    timeout 1 5000 w = Some w' /\
    timers w = [(1%nat, 5000)] /\
    lastActivityTime (tracker w') = 5000 /\
    timers w' = [(2%nat, 10000)].
Proof.
  cbv zeta.
  assert (H : reachable (worldAfter (take 1 idleRun))).
  { exists 0, (take 1 idleRun). vm_compute. reflexivity. }
  eexists. split; [vm_compute; reflexivity|].
  destruct (idle_timeout_fires_and_rearms 1 5000 _ _ H eq_refl)
    as (due & Ht & _ & _ & Hb).
  cbn [truthy sessionId tracker worldAfter] in Hb.
  split; [vm_compute; reflexivity|].
  destruct Hb as (_ & Hl & Htm & _).
  split; [exact Hl | exact Htm].
Defined.

(** C10: with no session bound, [trackEvent] does nothing.  The whole
    state is returned as it was: nothing is queued, nothing is sent or
    stored, and the activity clock and the timers are untouched.  This is
    the case in the initial state and after [cleanup]. *)
Theorem trackEvent_unbound_noop now ty md w w0 t0 :
  sessionId (tracker w) = None ->
  trackEvent now ty md w = w /\
  trackEvent now ty md (cleanup w0) = cleanup w0 /\
  trackEvent now ty md (initial t0) = initial t0.
Proof.
  intros H. split; [|split].
  - apply trackEvent_unbound. rewrite H. reflexivity.
  - apply trackEvent_unbound. unfold cleanup.
    destruct (idleTimer (tracker w0)); reflexivity.
  - reflexivity.
Qed.

Lemma trackEvent_unbound_noop_witness :
  let w := worldAfter teardownRun in
  sessionId (tracker w) = None /\
  trackEvent 1000 CODE_EDIT ∅ w = w.
Proof.
  cbv zeta. split; [reflexivity|].
  apply (trackEvent_unbound_noop 1000 CODE_EDIT ∅ (worldAfter teardownRun)
           (initial 0) 0 eq_refl).
Defined.

Lemma guardedCalls_effect now query calls : forall w,
  Inv w -> truthy (sessionId (tracker w)) = true ->
  exists es,
    enqueued (guardedCalls calls now query w) = enqueued w ++ es /\
    type <$> es = flat_map (fun call : bool * EventType =>
                              if call.1 then [call.2] else []) calls /\
    Forall (fun e => event_metadata e !! "query_snippet"
                     = Some (VStr (substring0 query 100))) es.
Proof.
  induction calls as [|[b ty] calls IH]; intros w HI Hb.
  - exists []. rewrite app_nil_r. repeat split. constructor.
  - cbn [guardedCalls fold_left fst snd flat_map]. destruct b.
    + destruct (trackEvent_bound_effect now ty (snippet query) w Hb
                  (inv_timers _ HI)) as (He & _ & _ & Hs & _).
      destruct (IH (trackEvent now ty (snippet query) w)) as (es & E & T & F).
      { apply Inv_trackEvent, HI. }
      { rewrite Hs. exact Hb. }
      exists (stamped now (nextUuid w) ty (snippet query) :: es).
      unfold guardedCalls in E. rewrite E, He, <- app_assoc.
      split; [reflexivity|]. split; [cbn; rewrite T; reflexivity|].
      constructor; [|exact F].
      cbn. rewrite lookup_insert_ne by discriminate.
      rewrite lookup_insert_ne by discriminate.
      apply lookup_singleton_eq.
    + apply IH; assumption.
Qed.

(** C6, as the specification states it, fails: the excerpt is the whole
    text whenever the text has at most 100 code units.  A 22-unit query
    with a join yields one [TABLE_JOINED] event whose [query_snippet] is
    the query itself. *)
Lemma snippet_is_whole_query_counterexample :
  let query := js "SELECT a FROM t JOIN u" in
  let w := worldAfter [(0, Initialize sessionA)] in
  (fun e => (type e, event_metadata e !! "query_snippet"))
    <$> enqueued (trackSQLComplexity Classifier.asciiToUpperCase 100 query w).2
  = [(TABLE_JOINED, Some (VStr query))].
Proof. vm_compute. reflexivity. Qed.

(** C6, amended: with a session bound, [trackSQLComplexity] enqueues one
    event for each tag that is set, in the order join, aggregate,
    subquery, group-by, filter, window, and each carries as
    [query_snippet] the first 100 code units of the query: an excerpt of
    at most 100 units, which is the whole query exactly when the query
    has at most 100 units. *)
Theorem trackSQLComplexity_emits toUpperCase now query w :
  reachable w ->
  truthy (sessionId (tracker w)) = true ->
  exists es,
    enqueued (trackSQLComplexity toUpperCase now query w).2
    = enqueued w ++ es /\
    type <$> es
    = Classifier.positiveTags (Classifier.complexity toUpperCase query) /\
    Forall (fun e => event_metadata e !! "query_snippet"
                     = Some (VStr (substring0 query 100))) es /\
    (length (substring0 query 100) <= 100)%nat /\
    substring0 query 100 `prefix_of` query /\
    (substring0 query 100 = query <-> (length query <= 100)%nat).
Proof.
  intros HI%Inv_reachable Hb.
  set (c := Classifier.complexity toUpperCase query).
  destruct (guardedCalls_effect now query
              [(Classifier.has_join c, TABLE_JOINED);
               (Classifier.has_aggregate c, AGGREGATE_USED);
               (Classifier.has_subquery c, SUBQUERY_USED);
               (Classifier.has_groupby c, GROUPING_APPLIED);
               (Classifier.has_where c, FILTER_APPLIED);
               (Classifier.has_window c, WINDOW_FUNCTION_USED)] w HI Hb)
    as (es & E & T & F).
  exists es. split; [exact E|]. split.
  { rewrite T. unfold Classifier.positiveTags. cbn [flat_map fst snd].
    rewrite app_nil_r. reflexivity. }
  split; [exact F|]. unfold substring0.
  split; [rewrite length_take; lia|].
  split; [apply prefix_take|].
  split.
  - intros H. rewrite <- H at 1. rewrite length_take. lia.
  - intros H. apply take_ge. exact H.
Qed.

Lemma trackSQLComplexity_emits_witness :
  let query := js "select a, count(*) from t where a > 1 group by a" in
  let w := worldAfter [(0, Initialize sessionA)] in
  exists es,
    enqueued (trackSQLComplexity Classifier.asciiToUpperCase 100 query w).2
    = enqueued w ++ es /\
    type <$> es = [AGGREGATE_USED; GROUPING_APPLIED; FILTER_APPLIED].
Proof.
  cbv zeta.
  assert (H : reachable (worldAfter [(0, Initialize sessionA)])).
  { exists 0, [(0, Initialize sessionA)]. vm_compute. reflexivity. }
  destruct (trackSQLComplexity_emits Classifier.asciiToUpperCase 100
              (js "select a, count(*) from t where a > 1 group by a") _ H
              eq_refl) as (es & E & T & _).
  exists es. split; [exact E|]. rewrite T. vm_compute. reflexivity.
Defined.

End TrackerFacts.

(** ** The phase controller *)
Module PhaseControllerFacts.
Import PhaseController.

(** C5: [submit] outside the coding phase is rejected without effect.
    When the phase is [interview] or [completed], [submit] returns
    [InvalidTransition] and the state it returns is the state it was
    given: phase, [submitted_at] and the event log are unchanged. *)
Theorem submit_invalid_transition now firstQuestion st :
  phase (session st) <> coding ->
  submit now firstQuestion st = (inl InvalidTransition, st).
Proof.
  intros H. unfold submit. destruct (phase (session st)); [contradiction| |];
    reflexivity.
Qed.

Lemma submit_invalid_transition_witness :
  let st := {| session := {| status := active; phase := interview;
                             submitted_at := Some 42 |};
               event_log := [mkEventData PHASE_SUBMITTED ∅] |} in
  submit 100 None st = (inl InvalidTransition, st).
Proof.
  cbv zeta. apply submit_invalid_transition. discriminate.
Defined.

End PhaseControllerFacts.

(** ** More about the telemetry client *)
Module TrackerMore.
Import Tracker TrackerFacts TrackerRuns.

(** Induction over the states the client can reach. *)
Lemma reachable_ind (P : World -> Prop) :
  (forall t0, P (initial t0)) ->
  (forall now a w w', Inv w -> P w -> step now a w = Some w' -> P w') ->
  forall w, reachable w -> P w.
Proof.
  intros H0 Hstep w (t0 & tr & Hrun).
  assert (Hgen : forall tr w1 w2, Inv w1 -> P w1 -> run w1 tr = Some w2 -> P w2).
  { clear -Hstep. induction tr as [|[now a] tr IH]; intros w1 w2 HI HP; simpl.
    - intros [= <-]. exact HP.
    - destruct (step now a w1) as [w'|] eqn:E; [|discriminate].
      apply IH; [eapply Inv_step | eapply Hstep]; eauto. }
  exact (Hgen tr _ _ (Inv_initial t0) (H0 t0) Hrun).
Qed.

(** What [trackEvent] does to the two ends of the queue when a session is
    bound: the new event goes to the back, nothing is acknowledged. *)
Lemma trackEvent_pending now ty md w :
  Inv w ->
  truthy (sessionId (tracker w)) = true ->
  delivered (trackEvent now ty md w) = delivered w /\
  pending (trackEvent now ty md w)
  = pending w ++ [stamped now (nextUuid w) ty md].
Proof.
  intros HI Hb. rewrite trackEvent_bound by (try apply HI; assumption).
  cbv zeta. destruct (truthy_inv _ Hb) as (c & sid & Hsid).
  destruct (inv_loop _ HI) as [(Hp & x & Hx) | (Hp & Hx)]; rewrite Hp.
  - unfold afterPush. open_world w. subst. split; [reflexivity|].
    cbn [fmap list_fmap app]. reflexivity.
  - unfold afterPush. open_world w. subst.
    destruct eventQueue0; cbn [app whileLoop]; fields; split; reflexivity.
Qed.

Lemma settle_frame i ok w w' :
  settle i ok w = Some w' ->
  enqueued w' = enqueued w /\ timers w' = timers w /\
  sessionId (tracker w') = sessionId (tracker w) /\
  idleTimer (tracker w') = idleTimer (tracker w).
Proof.
  unfold settle. destruct (awaiting w !! i) as [[event req]|]; [|discriminate].
  intros [= <-]. destruct ok.
  - match goal with |- context [whileLoop ?q ?w0] =>
      destruct (whileLoop_frame q w0) as (-> & -> & _ & _ & _ & -> & _ & _ & ->)
    end. repeat split.
  - open_world w. repeat split.
Qed.

Lemma lossless_step now a w w' :
  Inv w -> lossless w -> keepsSession a = true ->
  step now a w = Some w' -> lossless w'.
Proof.
  intros HI (He & Hb) Hk Hs.
  assert (Htrack : forall w0 ty md, Inv w0 -> lossless w0 ->
                     lossless (trackEvent now ty md w0)).
  { clear. intros w0 ty md HI (He & Hb).
    destruct (truthy (sessionId (tracker w0))) eqn:Ht.
    - destruct (trackEvent_pending now ty md w0 HI Ht) as (Hd & Hp).
      destruct (trackEvent_bound_effect now ty md w0 Ht (inv_timers _ HI))
        as (Hen & _ & _ & Hs & _).
      split.
      + rewrite Hen, Hd, Hp, He, app_assoc. reflexivity.
      + left. rewrite Hs. exact Ht.
    - rewrite trackEvent_unbound by exact Ht.
      split; [exact He | right].
      destruct Hb as [Hb | Hb]; [discriminate | exact Hb]. }
  destruct a as [sid | ty md | | h | i ok]; simpl in Hs.
  - injection Hs as <-. destruct sid as [|c sid]; [discriminate|].
    unfold initialize, startIdleTracking.
    rewrite resetIdleTimer_eq by (open_world w; apply (inv_timers _ HI)).
    unfold lossless in *. open_world w. split; [exact He | left; reflexivity].
  - injection Hs as <-. apply Htrack; [exact HI | split; assumption].
  - discriminate.
  - unfold timeout in Hs.
    destruct (list_find _ _) as [[? [? due]]|]; [|discriminate].
    destruct (due <=? now); [|discriminate]. injection Hs as <-.
    apply Htrack; [apply Inv_clearTimeout, HI | split; assumption].
  - destruct (settle_frame _ _ _ _ Hs) as (Hen & _ & Hsid & _).
    destruct (settle_reachable _ _ _ _ HI Hs) as (e & Hf & Hres).
    assert (Htr : truthy (sessionId (tracker w)) = true).
    { destruct Hb as [Hb | Hb]; [exact Hb|]. exfalso.
      rewrite Hb in He. symmetry in He. unfold pending in He. rewrite Hf in He.
      apply app_eq_nil in He as (_ & He). discriminate. }
    split; [|left; rewrite Hsid; exact Htr].
    rewrite Hen, He. unfold pending at 1. rewrite Hf.
    rewrite Htr in Hres. destruct ok.
    + destruct Hres as (-> & Hi & Hq). unfold pending. rewrite Hi, Hq.
      rewrite <- !app_assoc. rewrite take_drop. reflexivity.
    + destruct Hres as (-> & Hi & Hq). unfold pending. rewrite Hi, Hq.
      reflexivity.
Qed.

(** X1: no event is lost while the client stays bound.  In a run from the
    initial state without [cleanup()] and without [initialize("")], every
    event ever enqueued is acknowledged by the store, in flight, or still
    queued: the enqueue history is exactly these three in order. *)
Theorem no_event_lost_while_bound t0 tr w :
  forallb (fun x => keepsSession x.2) tr = true ->
  run (initial t0) tr = Some w ->
  enqueued w = delivered w ++ pending w.
Proof.
  intros Hk Hrun.
  assert (Hgen : forall tr w1 w2,
    Inv w1 -> lossless w1 -> forallb (fun x => keepsSession x.2) tr = true ->
    run w1 tr = Some w2 -> lossless w2).
  { clear. induction tr as [|[now a] tr IH]; intros w1 w2 HI HL; simpl.
    - intros _ [= <-]. exact HL.
    - intros (Ha & Htr)%andb_true_iff.
      destruct (step now a w1) as [w'|] eqn:E; [|discriminate].
      apply IH; [eapply Inv_step; eauto | eapply lossless_step; eauto | exact Htr]. }
  apply (Hgen tr (initial t0) w (Inv_initial t0)); [|exact Hk | exact Hrun].
  split; [reflexivity | right; reflexivity].
Qed.

Lemma no_event_lost_while_bound_witness :
  let w := worldAfter retryRun in
  type <$> enqueued w = [CODE_RUN; CODE_EDIT; SQL_RUN] /\
  enqueued w = delivered w ++ pending w.
Proof.
  cbv zeta. split; [vm_compute; reflexivity|].
  apply (no_event_lost_while_bound 0 retryRun); vm_compute; reflexivity.
Defined.

(** The effect of [trackEvent] on the transport: nothing, or one request
    for the head of the queue when it starts the loop. *)
Lemma trackEvent_transport now ty md w :
  Inv w ->
  let w' := trackEvent now ty md w in
  stored w' = stored w /\
  ((sent w' = sent w /\ awaiting w' = awaiting w) \/
   (exists e0 c sid,
       sessionId (tracker w) = Some (c :: sid) /\ awaiting w = [] /\
       isProcessing (tracker w) = false /\
       head (eventQueue (tracker w) ++ [stamped now (nextUuid w) ty md])
       = Some e0 /\
       sent w' = sent w ++ [mkRequest (c :: sid) e0] /\
       awaiting w' = [(e0, mkRequest (c :: sid) e0)])).
Proof.
  intros HI. cbv zeta.
  destruct (truthy (sessionId (tracker w))) eqn:Hb.
  2:{ rewrite trackEvent_unbound by exact Hb. split; [reflexivity | left; split; reflexivity]. }
  rewrite trackEvent_bound by (try apply HI; assumption). cbv zeta.
  destruct (truthy_inv _ Hb) as (c & sid & Hsid).
  destruct (inv_loop _ HI) as [(Hp & x & Hx) | (Hp & Hx)]; rewrite Hp.
  - unfold afterPush. open_world w. split; [reflexivity | left; split; reflexivity].
  - unfold afterPush. open_world w. subst.
    destruct eventQueue0 as [|e0 q]; cbn [app whileLoop]; fields;
      (split; [reflexivity | right]); do 3 eexists; repeat split.
Qed.

(** The effect of a settling delivery on the transport. *)
Lemma settle_transport i ok w w' :
  Inv w -> settle i ok w = Some w' ->
  exists event req,
    awaiting w = [(event, req)] /\
    stored w' = (if ok then stored w ++ [req] else stored w) /\
    ((sent w' = sent w /\ awaiting w' = []) \/
     (exists e0 c sid,
         ok = true /\ sent w' = sent w ++ [mkRequest (c :: sid) e0] /\
         awaiting w' = [(e0, mkRequest (c :: sid) e0)])).
Proof.
  intros HI Hs.
  destruct (settle_inv _ _ _ _ HI Hs) as (event & req & -> & Ha & Hq & Hp).
  unfold settle in Hs. rewrite Ha in Hs.
  cbn [lookup list_lookup] in Hs. injection Hs as <-.
  exists event, req. split; [exact Ha|].
  open_world w. subst. cbn [delete list_delete]. destruct ok.
  - destruct (truthy sessionId0) eqn:Hb.
    + destruct (truthy_inv _ Hb) as (c & sid & ->).
      destruct eventQueue0 as [|e0 q]; cbn [whileLoop]; fields;
        (split; [reflexivity|]).
      * left; split; reflexivity.
      * right. do 3 eexists. repeat split.
    + rewrite whileLoop_falsy by exact Hb. fields.
      split; [reflexivity | left; split; reflexivity].
  - fields. split; [reflexivity | left; split; reflexivity].
Qed.

Lemma transportOk_step now a w w' :
  Inv w -> transportOk w -> step now a w = Some w' -> transportOk w'.
Proof.
  intros HI (Hsid & Hsub) Hs.
  assert (Htrack : forall w0 ty md, Inv w0 -> transportOk w0 ->
                     transportOk (trackEvent now ty md w0)).
  { clear. intros w0 ty md HI (Hsid & Hsub).
    destruct (trackEvent_transport now ty md w0 HI) as (Hst & Hcase).
    cbv zeta in *. unfold transportOk. rewrite Hst.
    destruct Hcase as [(-> & ->) | (e0 & c & sid & _ & Ha & _ & _ & -> & ->)].
    - split; assumption.
    - rewrite Ha in Hsub. split.
      + apply Forall_app. split; [exact Hsid|]. constructor; [|constructor].
        discriminate.
      + apply sublist_app; [|reflexivity].
        rewrite app_nil_r in Hsub. exact Hsub. }
  destruct a as [sid | ty md | | h | i ok]; simpl in Hs.
  - injection Hs as <-. unfold initialize, startIdleTracking.
    rewrite resetIdleTimer_eq by (open_world w; apply (inv_timers _ HI)).
    unfold transportOk in *. open_world w. split; assumption.
  - injection Hs as <-. apply Htrack; [exact HI | split; assumption].
  - injection Hs as <-. unfold cleanup, transportOk in *.
    destruct (idleTimer (tracker w)); open_world w; split; assumption.
  - unfold timeout in Hs.
    destruct (list_find _ _) as [[? [? due]]|]; [|discriminate].
    destruct (due <=? now); [|discriminate]. injection Hs as <-.
    apply Htrack; [apply Inv_clearTimeout, HI | split; assumption].
  - destruct (settle_transport _ _ _ _ HI Hs) as (event & req & Ha & Hst & Hcase).
    rewrite Ha in Hsub. cbn [fmap list_fmap snd] in Hsub.
    unfold transportOk. rewrite Hst.
    destruct Hcase as [(-> & ->) | (e0 & c & sid & -> & -> & ->)].
    + split; [exact Hsid|]. cbn [fmap list_fmap]. rewrite app_nil_r.
      destruct ok; [exact Hsub|].
      etrans; [|exact Hsub]. apply sublist_inserts_r. reflexivity.
    + split.
      * apply Forall_app. split; [exact Hsid|]. constructor; [|constructor].
        discriminate.
      * apply sublist_app; [exact Hsub | reflexivity].
Qed.

(** X2: nothing is sent without a session, and the store sees what was
    sent.  In every state the client can reach, each request handed to
    [logEvent] carries a non-empty session id, and the requests accepted
    by the store, followed by the one in flight, are among the requests
    sent and in sending order. *)
Theorem requests_name_a_session w :
  reachable w ->
  Forall (fun r => session_id r <> []) (sent w) /\
  stored w ++ (snd <$> awaiting w) `sublist_of` sent w.
Proof.
  apply (reachable_ind transportOk).
  - intros t0. split; constructor.
  - intros now a w1 w2. apply transportOk_step.
Qed.

Lemma requests_name_a_session_witness :
  let w := worldAfter rebindRun in
  session_id <$> sent w = [sessionA; sessionB; sessionB] /\
  Forall (fun r => session_id r <> []) (sent w).
Proof.
  cbv zeta. split; [vm_compute; reflexivity|].
  apply requests_name_a_session. exists 0, rebindRun. vm_compute. reflexivity.
Defined.

(** While a session is bound, the idle timeout is pending. *)
Lemma bound_timer_pending w :
  reachable w ->
  truthy (sessionId (tracker w)) = true ->
  exists h due, timers w = [(h, due)] /\ idleTimer (tracker w) = Some h.
Proof.
  revert w.
  apply (reachable_ind (fun w =>
    truthy (sessionId (tracker w)) = true ->
    exists h due, timers w = [(h, due)] /\ idleTimer (tracker w) = Some h)).
  - intros t0. discriminate.
  - intros now a w w' HI HP Hs.
    assert (Htrack : forall w0 ty md, timersOk w0 ->
      (truthy (sessionId (tracker w0)) = true ->
       exists h due, timers w0 = [(h, due)] /\ idleTimer (tracker w0) = Some h) ->
      truthy (sessionId (tracker (trackEvent now ty md w0))) = true ->
      exists h due, timers (trackEvent now ty md w0) = [(h, due)] /\
                    idleTimer (tracker (trackEvent now ty md w0)) = Some h).
    { clear. intros w0 ty md Ht HP.
      destruct (truthy (sessionId (tracker w0))) eqn:Hb.
      - intros _. rewrite trackEvent_bound by assumption. cbv zeta.
        destruct (isProcessing (tracker w0)).
        + unfold afterPush. open_world w0. eauto.
        + match goal with |- context [whileLoop ?q ?w1] =>
            destruct (whileLoop_frame q w1) as (_ & -> & _ & _ & _ & _ & _ & _ & ->)
          end. unfold afterPush. open_world w0. eauto.
      - rewrite trackEvent_unbound by exact Hb. rewrite Hb. discriminate. }
    destruct a as [sid | ty md | | h | i ok]; simpl in Hs.
    + injection Hs as <-. intros _. unfold initialize, startIdleTracking.
      rewrite resetIdleTimer_eq by (open_world w; apply (inv_timers _ HI)).
      open_world w. eauto.
    + injection Hs as <-. apply Htrack; [apply (inv_timers _ HI) | exact HP].
    + injection Hs as <-. unfold cleanup.
      destruct (idleTimer (tracker w)); open_world w; discriminate.
    + unfold timeout in Hs.
      destruct (list_find _ _) as [[? [? due]]|]; [|discriminate].
      destruct (due <=? now); [|discriminate]. injection Hs as <-.
      assert (Hc : timersOk (clearTimeout h w)).
      { apply (inv_timers _ (Inv_clearTimeout h w HI)). }
      destruct (truthy (sessionId (tracker (clearTimeout h w)))) eqn:Hb.
      * intros _. rewrite trackEvent_bound by assumption. cbv zeta.
        destruct (isProcessing (tracker (clearTimeout h w))).
        -- unfold afterPush. open_world w. eauto.
        -- match goal with |- context [whileLoop ?q ?w1] =>
             destruct (whileLoop_frame q w1) as (_ & -> & _ & _ & _ & _ & _ & _ & ->)
           end. unfold afterPush. open_world w. eauto.
      * rewrite trackEvent_unbound by exact Hb. rewrite Hb. discriminate.
    + destruct (settle_frame _ _ _ _ Hs) as (_ & -> & -> & ->). exact HP.
Qed.

(** X3: while a session is bound, exactly one idle timeout is pending,
    the one whose handle the tracker holds. *)
Theorem idle_timer_pending_while_bound w :
  reachable w ->
  truthy (sessionId (tracker w)) = true ->
  exists h due, timers w = [(h, due)] /\ idleTimer (tracker w) = Some h.
Proof. apply bound_timer_pending. Qed.

Lemma idle_timer_pending_while_bound_witness :
  let w := worldAfter retryRun in
  exists h due, timers w = [(h, due)] /\ idleTimer (tracker w) = Some h.
Proof.
  cbv zeta. apply idle_timer_pending_while_bound; [|reflexivity].
  exists 0, retryRun. vm_compute. reflexivity.
Defined.

(** X4: a stalled queue is retried when the idle timeout fires.  When
    events are queued, a session is bound and no loop is running (as
    after a rejected delivery), a timeout is pending, and once it is due
    its firing starts the loop again: the head of the queue is sent under
    the bound session and the queue keeps its order, with the [IDLE_GAP]
    event behind it. *)
Theorem stalled_queue_retried_on_idle w :
  reachable w ->
  stalled w ->
  exists h due e q sid,
    timers w = [(h, due)] /\
    eventQueue (tracker w) = e :: q /\
    sessionId (tracker w) = Some sid /\
    forall now, due <= now ->
      exists w',
        timeout h now w = Some w' /\
        sent w' = sent w ++ [mkRequest sid e] /\
        inFlight w' = [e] /\
        eventQueue (tracker w')
        = q ++ [stamped now (nextUuid w) IDLE_GAP
                  {[ "idle_duration" := VNum (now - lastActivityTime (tracker w)) ]}].
Proof.
  intros Hr (Hb & Hp & Hq).
  destruct (bound_timer_pending w Hr Hb) as (h & due & Ht & Hidle).
  pose proof (Inv_reachable _ Hr) as HI.
  destruct (truthy_inv _ Hb) as (c & sid & Hsid).
  destruct (eventQueue (tracker w)) as [|e q] eqn:Hqueue; [contradiction|].
  exists h, due, e, q, (c :: sid). repeat (split; [assumption || reflexivity|]).
  intros now Hdue. unfold timeout. rewrite Ht. cbn [list_find].
  rewrite decide_True by reflexivity. cbn [fmap option_fmap option_map].
  destruct (Z.leb_spec due now) as [_|]; [|lia].
  eexists. split; [reflexivity|].
  rewrite trackEvent_bound.
  2:{ open_world w. exact Hb. }
  2:{ apply (inv_timers _ (Inv_clearTimeout h w HI)). }
  destruct (inv_loop _ HI) as [(Hp' & _) | (_ & Ha)]; [congruence|].
  unfold afterPush. open_world w. subst. cbn [app whileLoop]. fields.
  repeat split.
Qed.

Lemma stalled_queue_retried_on_idle_witness :
  let w := worldAfter (take 3 rebindRun) in
  exists w' e sid,
    timeout 2 5100 w = Some w' /\
    sent w' = sent w ++ [mkRequest sid e] /\
    inFlight w' = [e].
Proof.
  cbv zeta.
  assert (H : reachable (worldAfter (take 3 rebindRun))).
  { exists 0, (take 3 rebindRun). vm_compute. reflexivity. }
  assert (Hs : stalled (worldAfter (take 3 rebindRun))).
  { repeat split. discriminate. }
  destruct (stalled_queue_retried_on_idle _ H Hs)
    as (h & due & e & q & sid & Ht & _ & _ & Hfire).
  vm_compute in Ht. injection Ht as <- <-.
  destruct (Hfire 5100 ltac:(lia)) as (w' & Hw & Hsent & Hfl & _).
  exists w', e, sid. repeat split; assumption.
Defined.

Lemma cleanup_timers w : Inv w -> timers (cleanup w) = [].
Proof.
  intros HI. unfold cleanup.
  destruct (inv_timers _ HI) as [E | (h & due & E & Hh & _)].
  - destruct (idleTimer (tracker w)); open_world w; subst; reflexivity.
  - rewrite Hh. open_world w. subst. apply filter_own_handle.
Qed.

(** X5: a torn-down client is quiet.  After [cleanup()] no timeout is
    pending, so no idle timeout can fire, and any further run made of
    [trackEvent] calls and timeouts leaves the state exactly as
    [cleanup()] left it: nothing is enqueued, sent or re-armed until the
    client is initialized again. *)
Theorem torn_down_client_is_quiet w :
  reachable w ->
  timers (cleanup w) = [] /\
  (forall h now, timeout h now (cleanup w) = None) /\
  (forall tr w',
      forallb (fun x => trackOrTimeout x.2) tr = true ->
      run (cleanup w) tr = Some w' -> w' = cleanup w).
Proof.
  intros HI%Inv_reachable. pose proof (cleanup_timers w HI) as Hc.
  assert (Hnone : forall h now, timeout h now (cleanup w) = None).
  { intros h now. unfold timeout. rewrite Hc. reflexivity. }
  split; [exact Hc|]. split; [exact Hnone|].
  induction tr as [|[now a] tr IH]; intros w'; simpl.
  - intros _ [= <-]. reflexivity.
  - intros (Ha & Htr)%andb_true_iff. destruct a; try discriminate; simpl.
    + rewrite trackEvent_unbound.
      * apply IH, Htr.
      * unfold cleanup. destruct (idleTimer (tracker w)); reflexivity.
    + rewrite Hnone. discriminate.
Qed.

Lemma torn_down_client_is_quiet_witness :
  let w := worldAfter retryRun in
  timers w <> [] /\ timers (cleanup w) = [] /\
  run (cleanup w) [(9000, TrackEvent CODE_RUN ∅); (9500, TrackEvent SQL_RUN ∅)]
  = Some (cleanup w).
Proof.
  cbv zeta.
  assert (H : reachable (worldAfter retryRun)).
  { exists 0, retryRun. vm_compute. reflexivity. }
  destruct (torn_down_client_is_quiet _ H) as (Hc & _ & Hrun).
  split; [discriminate|]. split; [exact Hc|].
  destruct (run (cleanup (worldAfter retryRun))
              [(9000, TrackEvent CODE_RUN ∅); (9500, TrackEvent SQL_RUN ∅)])
    as [w'|] eqn:E.
  - f_equal.
    apply (Hrun [(9000, TrackEvent CODE_RUN ∅); (9500, TrackEvent SQL_RUN ∅)]
                w' eq_refl E).
  - vm_compute in E. discriminate.
Defined.

(** X6: [cleanup()] does not abort the delivery in flight.  The suspended
    loop survives the teardown; if its request then resolves, the event
    is stored although the client has been cleaned up, and if it rejects,
    the event is put back into the emptied queue of the now unbound
    client, where it stays with no loop running. *)
Theorem cleanup_keeps_delivery_in_flight w e r :
  awaiting w = [(e, r)] ->
  awaiting (cleanup w) = [(e, r)] /\
  (exists w1,
      settle 0 true (cleanup w) = Some w1 /\
      stored w1 = stored w ++ [r] /\
      eventQueue (tracker w1) = [] /\ awaiting w1 = [] /\
      isProcessing (tracker w1) = false) /\
  (exists w2,
      settle 0 false (cleanup w) = Some w2 /\
      stored w2 = stored w /\
      eventQueue (tracker w2) = [e] /\ awaiting w2 = [] /\
      sessionId (tracker w2) = None /\
      isProcessing (tracker w2) = false).
Proof.
  intros Ha. unfold cleanup, settle.
  destruct (idleTimer (tracker w)); open_world w; subst;
    cbn [lookup list_lookup delete list_delete whileLoop]; fields;
    (split; [reflexivity|]); split; eexists; repeat split.
Qed.

Lemma cleanup_keeps_delivery_in_flight_witness :
  let w := worldAfter oneInFlight in
  exists w2,
    run w [(500, Cleanup); (600, Settle 0 false)] = Some w2 /\
    type <$> eventQueue (tracker w2) = [CODE_RUN] /\
    sessionId (tracker w2) = None.
Proof.
  cbv zeta.
  destruct (cleanup_keeps_delivery_in_flight (worldAfter oneInFlight) _ _ eq_refl)
    as (_ & _ & w2 & Hs & _ & Hq & _ & Hsid & _).
  exists w2. cbn [run step]. rewrite Hs.
  split; [reflexivity|]. split; [rewrite Hq; reflexivity | exact Hsid].
Defined.

(** X7: [trackEvent] stamps every event itself.  With a session bound,
    the enqueued event has the given type, its [timestamp] is the time of
    the call and its [client_id] a fresh identifier, whatever the caller
    put under these two keys; every other key of the caller's metadata is
    kept as given; and no earlier event has the same [client_id]. *)
Theorem trackEvent_stamps_metadata now ty md w :
  reachable w ->
  truthy (sessionId (tracker w)) = true ->
  exists e,
    enqueued (trackEvent now ty md w) = enqueued w ++ [e] /\
    type e = ty /\
    event_metadata e !! "timestamp" = Some (VIsoTime now) /\
    event_metadata e !! "client_id" = Some (VUuid (nextUuid w)) /\
    (forall k, k <> "timestamp" -> k <> "client_id" ->
               event_metadata e !! k = md !! k) /\
    Forall (fun e' => clientId e' <> clientId e) (enqueued w).
Proof.
  intros HI%Inv_reachable Hb.
  destruct (trackEvent_bound_effect now ty md w Hb (inv_timers _ HI))
    as (He & _).
  exists (stamped now (nextUuid w) ty md). split; [exact He|].
  split; [reflexivity|]. unfold stamped; cbn [event_metadata].
  split; [rewrite lookup_insert_ne by discriminate; apply lookup_insert_eq|].
  split; [apply lookup_insert_eq|].
  split.
  - intros k Hk1 Hk2. rewrite !lookup_insert_ne by congruence. reflexivity.
  - apply Forall_forall. intros e' Hin.
    assert (Hin' : clientId e' ∈ clientId <$> enqueued w).
    { apply list_elem_of_fmap. eauto. }
    rewrite (inv_ids _ HI) in Hin'.
    apply list_elem_of_fmap in Hin' as (n & Hn & Hseq).
    apply elem_of_seq in Hseq. rewrite Hn.
    unfold clientId; cbn [event_metadata]. rewrite lookup_insert_eq.
    intros [= ->]. lia.
Qed.

Lemma trackEvent_stamps_metadata_witness :
  let w := worldAfter oneInFlight in
  let md : Metadata := {[ "timestamp" := VStr (js "caller") ; "x" := VNum 1 ]} in
  exists e,
    enqueued (trackEvent 700 PHASE_SUBMITTED md w) = enqueued w ++ [e] /\
    event_metadata e !! "timestamp" = Some (VIsoTime 700) /\
    event_metadata e !! "x" = Some (VNum 1).
Proof.
  cbv zeta.
  assert (H : reachable (worldAfter oneInFlight)).
  { exists 0, oneInFlight. vm_compute. reflexivity. }
  destruct (trackEvent_stamps_metadata 700 PHASE_SUBMITTED
              {[ "timestamp" := VStr (js "caller") ; "x" := VNum 1 ]} _ H eq_refl)
    as (e & He & _ & Ht & _ & Hk & _).
  exists e. split; [exact He|]. split; [exact Ht|].
  rewrite Hk by discriminate. reflexivity.
Defined.

(** X20: [initialize("")] arms the timer but binds nothing.  After it,
    [trackEvent] does nothing, and the timeout it armed fires once
    without enqueuing an event or arming another. *)
Theorem initialize_empty_id_binds_nothing now w :
  reachable w ->
  let w1 := initialize [] now w in
  timers w1 = [(nextHandle w, now + 5000)] /\
  (forall t ty md, trackEvent t ty md w1 = w1) /\
  (forall t, now + 5000 <= t ->
     exists w2,
       timeout (nextHandle w) t w1 = Some w2 /\
       enqueued w2 = enqueued w /\ timers w2 = [] /\
       sessionId (tracker w2) = Some []).
Proof.
  intros HI%Inv_reachable. cbv zeta.
  pose proof (inv_threshold _ HI) as Hth.
  unfold initialize, startIdleTracking.
  rewrite resetIdleTimer_eq by (open_world w; apply (inv_timers _ HI)).
  split; [open_world w; rewrite Hth; reflexivity|].
  split; [intros; apply trackEvent_unbound; open_world w; reflexivity|].
  intros t Ht. unfold timeout. open_world w. cbn [list_find].
  rewrite decide_True by reflexivity. cbn [fmap option_fmap option_map].
  subst. destruct (Z.leb_spec (now + 5000) t) as [_|]; [|lia].
  eexists. split; [reflexivity|].
  rewrite trackEvent_unbound by reflexivity. fields.
  rewrite filter_own_handle. repeat split.
Qed.

Lemma initialize_empty_id_binds_nothing_witness :
  let w1 := initialize [] 0 (initial 0) in
  timers w1 = [(1%nat, 5000)] /\
  trackEvent 10 CODE_RUN ∅ w1 = w1.
Proof.
  cbv zeta.
  assert (H : reachable (initial 0)) by (exists 0, []; reflexivity).
  destruct (initialize_empty_id_binds_nothing 0 (initial 0) H) as (Ht & Hn & _).
  split; [exact Ht | apply Hn].
Defined.

End TrackerMore.

(** ** The typed tracking methods *)
Module TrackerApiFacts.
Import Tracker TrackerFacts TrackerApi.

Lemma split_nonempty sep s : split sep s <> [].
Proof.
  destruct s as [|c s]; simpl; [discriminate|].
  destruct (c =? sep)%N; [discriminate|].
  destruct (split sep s); discriminate.
Qed.

Lemma split_length sep s : length (split sep s) = S (countUnit sep s).
Proof.
  unfold countUnit. induction s as [|c s IH]; [reflexivity|].
  cbn [split]. rewrite filter_cons. destruct (N.eqb_spec c sep) as [->|Hne].
  - rewrite decide_True by reflexivity. cbn [length]. rewrite IH. reflexivity.
  - rewrite decide_False by exact Hne.
    destruct (split sep s) eqn:E; [destruct (split_nonempty _ _ E)|].
    exact IH.
Qed.

Lemma join_cons sep piece pieces :
  pieces <> [] -> join sep (piece :: pieces) = piece ++ sep :: join sep pieces.
Proof. destruct pieces; [contradiction | reflexivity]. Qed.

(** Splitting and joining again gives the string back. *)
Lemma join_split sep s : join sep (split sep s) = s.
Proof.
  induction s as [|c s IH]; [reflexivity|].
  cbn [split]. pose proof (split_nonempty sep s) as Hn.
  destruct (N.eqb_spec c sep) as [->|Hne].
  - rewrite join_cons by exact Hn. rewrite IH. reflexivity.
  - destruct (split sep s) as [|piece pieces] eqn:E; [contradiction|].
    destruct pieces as [|piece' pieces].
    + cbn [join] in *. rewrite IH. reflexivity.
    + rewrite join_cons by discriminate.
      rewrite join_cons in IH by discriminate.
      rewrite <- IH. reflexivity.
Qed.

(** What a bound [trackEvent] appends to the history. *)
Lemma trackEvent_enqueues now ty md w :
  Inv w ->
  truthy (sessionId (tracker w)) = true ->
  enqueued (trackEvent now ty md w)
  = enqueued w ++ [stamped now (nextUuid w) ty md] /\
  Inv (trackEvent now ty md w) /\
  truthy (sessionId (tracker (trackEvent now ty md w))) = true.
Proof.
  intros HI Hb.
  destruct (trackEvent_bound_effect now ty md w Hb (inv_timers _ HI))
    as (He & _ & _ & Hs & _).
  split; [exact He|]. split; [apply Inv_trackEvent, HI|].
  rewrite Hs. exact Hb.
Qed.

Lemma stamped_lookup now n ty md k :
  k <> "timestamp" -> k <> "client_id" ->
  event_metadata (stamped now n ty md) !! k = md !! k.
Proof.
  intros H1 H2. unfold stamped; cbn [event_metadata].
  rewrite !lookup_insert_ne by congruence. reflexivity.
Qed.

(** X8: the code metrics of [trackCodeEdit] and [trackCodeRun].  With a
    session bound, each enqueues one event of its type whose
    [code_length] is the number of code units of the code and whose
    [lines] is one more than the number of newline units in it, so the
    empty code counts as one line. *)
Theorem code_events_count_lines now code language w :
  reachable w ->
  truthy (sessionId (tracker w)) = true ->
  (exists e,
      enqueued (trackCodeEdit now code language w) = enqueued w ++ [e] /\
      type e = CODE_EDIT /\
      event_metadata e !! "code_length" = Some (VNum (jsLength code)) /\
      event_metadata e !! "language" = Some (VStr language) /\
      event_metadata e !! "lines"
      = Some (VNum (1 + Z.of_nat (countUnit newline code)))) /\
  (exists e,
      enqueued (trackCodeRun now code language w) = enqueued w ++ [e] /\
      type e = CODE_RUN /\
      event_metadata e !! "code_length" = Some (VNum (jsLength code)) /\
      event_metadata e !! "language" = Some (VStr language) /\
      event_metadata e !! "lines"
      = Some (VNum (1 + Z.of_nat (countUnit newline code)))).
Proof.
  intros HI%Inv_reachable Hb.
  assert (Hl : Z.of_nat (length (split newline code))
               = 1 + Z.of_nat (countUnit newline code)).
  { rewrite split_length. lia. }
  split.
  - destruct (trackEvent_enqueues now CODE_EDIT
      {[ "code_length" := VNum (jsLength code); "language" := VStr language;
         "lines" := VNum (Z.of_nat (length (split newline code))) ]} w HI Hb)
      as (He & _).
    eexists. split; [exact He|]. split; [reflexivity|].
    rewrite !stamped_lookup by discriminate. rewrite <- Hl.
    repeat split.
  - destruct (trackEvent_enqueues now CODE_RUN
      {[ "code_length" := VNum (jsLength code); "language" := VStr language;
         "lines" := VNum (Z.of_nat (length (split newline code))) ]} w HI Hb)
      as (He & _).
    eexists. split; [exact He|]. split; [reflexivity|].
    rewrite !stamped_lookup by discriminate. rewrite <- Hl.
    repeat split.
Qed.

Lemma code_events_count_lines_witness :
  let w := worldAfter oneInFlight in
  exists e,
    enqueued (trackCodeEdit 700 [] (js "sql") w) = enqueued w ++ [e] /\
    event_metadata e !! "lines" = Some (VNum 1) /\
    event_metadata e !! "code_length" = Some (VNum 0).
Proof.
  cbv zeta.
  assert (H : reachable (worldAfter oneInFlight)).
  { exists 0, oneInFlight. vm_compute. reflexivity. }
  destruct (code_events_count_lines 700 [] (js "sql") _ H eq_refl)
    as ((e & He & _ & Hc & _ & Hl) & _).
  exists e. split; [exact He|]. split; [exact Hl | exact Hc].
Defined.

(** X9: in [trackError] the context wins over the error text.  With a
    session bound, the [ERROR_OCCURRED] event carries under
    [error_message] the context's value for that key when the context has
    one, and the error text otherwise; every other key of the context,
    apart from [timestamp] and [client_id], is logged as given. *)
Theorem trackError_context_wins now error context w :
  reachable w ->
  truthy (sessionId (tracker w)) = true ->
  exists e,
    enqueued (trackError now error context w) = enqueued w ++ [e] /\
    type e = ERROR_OCCURRED /\
    event_metadata e !! "error_message"
    = Some (default (VStr error) (default ∅ context !! "error_message")) /\
    (forall k, k <> "timestamp" -> k <> "client_id" -> k <> "error_message" ->
               event_metadata e !! k = default ∅ context !! k).
Proof.
  intros HI%Inv_reachable Hb.
  destruct (trackEvent_enqueues now ERROR_OCCURRED
              (default ∅ context ∪ {[ "error_message" := VStr error ]}) w HI Hb)
    as (He & _).
  eexists. split; [exact He|]. split; [reflexivity|]. split.
  - rewrite stamped_lookup by discriminate. rewrite lookup_union.
    rewrite lookup_singleton_eq.
    destruct (default ∅ context !! "error_message"); reflexivity.
  - intros k H1 H2 H3. rewrite stamped_lookup by assumption.
    rewrite lookup_union, lookup_singleton_ne by congruence.
    destruct (default ∅ context !! k); reflexivity.
Qed.

Lemma trackError_context_wins_witness :
  let w := worldAfter oneInFlight in
  let context : Metadata := {[ "error_message" := VStr (js "from context") ]} in
  exists e,
    enqueued (trackError 700 (js "boom") (Some context) w) = enqueued w ++ [e] /\
    event_metadata e !! "error_message" = Some (VStr (js "from context")).
Proof.
  cbv zeta.
  assert (H : reachable (worldAfter oneInFlight)).
  { exists 0, oneInFlight. vm_compute. reflexivity. }
  destruct (trackError_context_wins 700 (js "boom")
              (Some {[ "error_message" := VStr (js "from context") ]}) _ H eq_refl)
    as (e & He & _ & Hm & _).
  exists e. split; [exact He | exact Hm].
Defined.

End TrackerApiFacts.

(** ** The notebook *)
Module NotebookFacts.
Import Tracker TrackerFacts TrackerApi TrackerApiFacts Notebook.

Lemma spliceInsert_nat {A} (n : nat) (x : A) (l : list A) :
  spliceInsert (Z.of_nat n) x l = take n l ++ x :: drop n l.
Proof. unfold spliceInsert. rewrite Nat2Z.id. reflexivity. Qed.

(** The shape of what [addCell] returns. *)
Lemma addCell_shape now afterId cells :
  exists n, addCell now afterId cells = take n cells ++ newCell now :: drop n cells.
Proof.
  unfold addCell. destruct afterId as [[|c s]|].
  - exists (length cells). rewrite firstn_all, drop_all. reflexivity.
  - unfold findIndex. destruct (list_find _ cells) as [[i x]|].
    + exists (S i). replace (Z.of_nat i + 1) with (Z.of_nat (S i)) by lia.
      apply spliceInsert_nat.
    + exists 0%nat. reflexivity.
  - exists (length cells). rewrite firstn_all, drop_all. reflexivity.
Qed.

Lemma addCell_length now afterId cells :
  length (addCell now afterId cells) = S (length cells).
Proof.
  destruct (addCell_shape now afterId cells) as (n & ->).
  rewrite length_app. cbn [length]. rewrite length_take, length_drop. lia.
Qed.

(** X10: where [addCell] puts the new cell.  The list grows by exactly
    the new cell and the old cells keep their order.  Without an
    [afterId] the new cell goes to the end; with the id of a cell it goes
    right behind the first cell with that id; with an id no cell has, it
    goes to the front. *)
Theorem addCell_placement now afterId cells :
  length (addCell now afterId cells) = S (length cells) /\
  cells `sublist_of` addCell now afterId cells /\
  (afterId = None \/ afterId = Some [] ->
   addCell now afterId cells = cells ++ [newCell now]) /\
  (forall target i cell,
      afterId = Some target -> target <> [] ->
      cells !! i = Some cell -> id cell = target ->
      (forall j other, (j < i)%nat -> cells !! j = Some other ->
                       id other <> target) ->
      addCell now afterId cells
      = take (S i) cells ++ newCell now :: drop (S i) cells) /\
  (forall target,
      afterId = Some target -> target <> [] -> target ∉ id <$> cells ->
      addCell now afterId cells = newCell now :: cells).
Proof.
  split; [|split; [|split; [|split]]].
  - apply addCell_length.
  - destruct (addCell_shape now afterId cells) as (n & ->).
    rewrite <- (take_drop n cells) at 1.
    apply sublist_app; [reflexivity|]. apply sublist_cons. reflexivity.
  - intros [-> | ->]; reflexivity.
  - intros target i cell -> Hne Hi Hid Hfirst.
    destruct target as [|c s]; [contradiction|].
    unfold addCell, findIndex.
    assert (Hfind : list_find (fun c0 => id c0 = c :: s) cells = Some (i, cell)).
    { apply list_find_Some. split; [exact Hi|]. split; [exact Hid|].
      intros j other Hj Hlt. apply (Hfirst j other Hlt Hj). }
    rewrite Hfind.
    replace (Z.of_nat i + 1) with (Z.of_nat (S i)) by lia.
    apply spliceInsert_nat.
  - intros target -> Hne Hnot.
    destruct target as [|c s]; [contradiction|].
    unfold addCell, findIndex.
    destruct (list_find _ cells) as [[i x]|] eqn:Hfind; [|reflexivity].
    exfalso. apply list_find_Some in Hfind as (Hi & Hid & _).
    apply Hnot. apply list_elem_of_fmap. exists x. split; [symmetry; exact Hid|].
    eapply list_elem_of_lookup_2, Hi.
Qed.

Lemma addCell_placement_witness :
  id <$> addCell 1700 (Some (js "1")) initialCells = [js "1"; js "1700"] /\
  id <$> addCell 1700 (Some (js "gone")) initialCells = [js "1700"; js "1"].
Proof.
  destruct (addCell_placement 1700 (Some (js "1")) initialCells)
    as (_ & _ & _ & Hafter & _).
  destruct (addCell_placement 1700 (Some (js "gone")) initialCells)
    as (_ & _ & _ & _ & Hfront).
  split.
  - rewrite (Hafter (js "1") 0%nat _ eq_refl ltac:(discriminate) eq_refl eq_refl).
    + reflexivity.
    + intros j other Hj. lia.
  - rewrite (Hfront (js "gone") eq_refl ltac:(discriminate)).
    + reflexivity.
    + vm_compute. intros H. inversion H as [|? ? ? H']; subst.
      inversion H'.
Defined.

Lemma ids_addCell now afterId cells :
  id <$> addCell now afterId cells ≡ₚ toString now :: (id <$> cells).
Proof.
  destruct (addCell_shape now afterId cells) as (n & ->).
  rewrite fmap_app, fmap_cons. cbn [id newCell].
  rewrite <- Permutation_middle. constructor.
  rewrite <- fmap_app, take_drop. reflexivity.
Qed.

Lemma ids_setCellCode target newCode cells :
  id <$> setCellCode target newCode cells = id <$> cells.
Proof.
  unfold setCellCode. rewrite <- list_fmap_compose. apply list_fmap_ext.
  intros i c _. cbn. destruct (decide (id c = target)); reflexivity.
Qed.

Lemma deleteCell_nil_iff target cells :
  deleteCell target cells = [] <->
  cells = [] \/ ((1 < length cells)%nat /\ Forall (fun c => id c = target) cells).
Proof.
  unfold deleteCell. destruct (Nat.ltb_spec 1 (length cells)) as [Hlt|Hle].
  - split.
    + intros Hnil. right. split; [exact Hlt|].
      apply Forall_forall. intros c Hc.
      destruct (decide (id c = target)) as [E|E]; [exact E|].
      exfalso. assert (Hin : c ∈ filter (fun c => id c <> target) cells).
      { apply list_elem_of_filter. split; assumption. }
      rewrite Hnil in Hin. inversion Hin.
    + intros [-> | (_ & Hall)]; [reflexivity|]. clear Hlt.
      induction Hall as [|c l Hc _ IH]; [reflexivity|].
      rewrite filter_cons_False by (intros H; apply H, Hc). exact IH.
  - split; [intros ->; left; reflexivity|].
    intros [-> | (Hlt & _)]; [reflexivity | lia].
Qed.

(** X11: when [deleteCell] empties the notebook.  It returns the empty
    list only if the list was empty or held at least two cells that all
    carry the deleted id; a single cell is never deleted, and cells with
    another id are always kept, in order. *)
Theorem deleteCell_empty_iff target cells :
  (deleteCell target cells = [] <->
   cells = [] \/ ((1 < length cells)%nat /\ Forall (fun c => id c = target) cells)) /\
  ((length cells <= 1)%nat -> deleteCell target cells = cells) /\
  filter (fun c => id c <> target) (deleteCell target cells)
  = filter (fun c => id c <> target) cells.
Proof.
  split; [apply deleteCell_nil_iff|].
  unfold deleteCell. destruct (Nat.ltb_spec 1 (length cells)) as [Hlt|Hle].
  - split; [lia|]. apply list_filter_filter_l. tauto.
  - split; reflexivity.
Qed.

(** Two cells created in the same millisecond share their id; deleting
    the first cell and then that id leaves no cell at all. *)
Lemma deleteCell_empty_iff_witness :
  let cells := addCell 1700 None (addCell 1700 None initialCells) in
  id <$> cells = [js "1"; js "1700"; js "1700"] /\
  deleteCell (js "1700") (deleteCell (js "1") cells) = [].
Proof.
  cbv zeta. split; [reflexivity|].
  apply (deleteCell_empty_iff (js "1700")). right.
  split; [vm_compute; lia|].
  repeat constructor.
Defined.

Lemma deleteCell_unique_nonempty target cells :
  cells <> [] -> NoDup (id <$> cells) -> deleteCell target cells <> [].
Proof.
  intros Hne Hnd Hnil.
  apply (deleteCell_nil_iff target cells) in Hnil as [-> | (Hlt & Hall)];
    [contradiction|].
  destruct cells as [|a [|b rest]]; cbn [length] in Hlt; try lia.
  inversion Hall as [|? ? Ha Hall']; subst.
  inversion Hall' as [|? ? Hb _]; subst.
  cbn [fmap list_fmap] in Hnd. apply NoDup_cons in Hnd as (Hnotin & _).
  apply Hnotin. rewrite Hb. left.
Qed.

Lemma applyEdit_invariant e cells :
  cells <> [] -> NoDup (id <$> cells) ->
  match e with
  | AddCell now _ => toString now ∉ id <$> cells
  | _ => True
  end ->
  applyEdit e cells <> [] /\ NoDup (id <$> applyEdit e cells).
Proof.
  intros Hne Hnd Hfresh. destruct e as [now afterId | target | target newCode];
    cbn [applyEdit].
  - split.
    + intros Hnil. pose proof (addCell_length now afterId cells) as Hlen.
      rewrite Hnil in Hlen. discriminate.
    + rewrite ids_addCell. apply NoDup_cons. split; assumption.
  - split; [apply deleteCell_unique_nonempty; assumption|].
    unfold deleteCell. destruct (1 <? length cells)%nat; [|exact Hnd].
    eapply sublist_NoDup; [exact Hnd|].
    apply fmap_sublist, sublist_filter.
  - split.
    + unfold setCellCode. destruct cells; [contradiction | discriminate].
    + rewrite ids_setCellCode. exact Hnd.
Qed.

(** X12: the notebook never becomes empty and its ids stay distinct.
    From the initial cell, after any sequence of additions, deletions and
    code updates in which every added cell gets an id no present cell
    has, at least one cell is left and no two cells share an id. *)
Theorem notebook_keeps_a_cell es :
  freshEdits initialCells es ->
  applyEdits es initialCells <> [] /\
  NoDup (id <$> applyEdits es initialCells).
Proof.
  assert (Hgen : forall es cells,
    cells <> [] -> NoDup (id <$> cells) -> freshEdits cells es ->
    applyEdits es cells <> [] /\ NoDup (id <$> applyEdits es cells)).
  { clear. induction es as [|e es IH]; intros cells Hne Hnd Hf.
    - split; assumption.
    - destruct Hf as (Hfresh & Hf).
      destruct (applyEdit_invariant e cells Hne Hnd Hfresh) as (Hne' & Hnd').
      apply (IH _ Hne' Hnd' Hf). }
  apply Hgen; [discriminate|].
  apply NoDup_singleton.
Qed.

Lemma notebook_keeps_a_cell_witness :
  let es := [AddCell 1700 None; DeleteCell (js "1");
             UpdateCellCode (js "1700") (js "select 1");
             DeleteCell (js "1700")] in
  id <$> applyEdits es initialCells = [js "1700"] /\
  applyEdits es initialCells <> [].
Proof.
  cbv zeta. split; [reflexivity|].
  apply notebook_keeps_a_cell.
  cbn [freshEdits]. split; [|repeat split].
  vm_compute. intros H. inversion H as [|? ? ? H']; subst. inversion H'.
Defined.

Lemma filter_all {A} (P : A -> Prop) `{!forall x, Decision (P x)} (l : list A) :
  Forall P l -> filter P l = l.
Proof.
  induction 1 as [|x l Hx _ IH]; [reflexivity|].
  rewrite filter_cons_True by exact Hx. rewrite IH. reflexivity.
Qed.

(** X13: adding a cell and deleting it again restores the notebook.  When
    the notebook is not empty and the new cell's id is not yet in use,
    [deleteCell] of that id undoes [addCell], wherever the cell was
    inserted. *)
Theorem add_then_delete_restores now afterId cells :
  cells <> [] ->
  toString now ∉ id <$> cells ->
  deleteCell (toString now) (addCell now afterId cells) = cells.
Proof.
  intros Hne Hfresh. unfold deleteCell.
  rewrite addCell_length. destruct cells as [|c0 rest]; [contradiction|].
  cbn [length]. replace (1 <? S (S (length rest)))%nat with true
    by (symmetry; apply Nat.ltb_lt; lia).
  destruct (addCell_shape now afterId (c0 :: rest)) as (n & ->).
  rewrite filter_app, filter_cons_False.
  2:{ intros H. apply H. reflexivity. }
  rewrite <- filter_app, take_drop.
  apply filter_all, Forall_forall. intros c Hc Heq.
  apply Hfresh. apply list_elem_of_fmap. exists c. split; [symmetry; exact Heq | exact Hc].
Qed.

Lemma add_then_delete_restores_witness :
  deleteCell (toString 1700) (addCell 1700 (Some (js "1")) initialCells)
  = initialCells.
Proof.
  apply add_then_delete_restores; [discriminate|].
  vm_compute. intros H. inversion H as [|? ? ? H']; subst. inversion H'.
Defined.

Lemma guardedCalls_inv now query calls : forall w,
  Inv w -> truthy (sessionId (tracker w)) = true ->
  Inv (guardedCalls calls now query w) /\
  truthy (sessionId (tracker (guardedCalls calls now query w))) = true.
Proof.
  induction calls as [|[b ty] calls IH]; intros w HI Hb.
  - split; assumption.
  - cbn [guardedCalls fold_left fst snd]. destruct b.
    + destruct (trackEvent_enqueues now ty (snippet query) w HI Hb)
        as (_ & HI' & Hb').
      apply (IH _ HI' Hb').
    + apply IH; assumption.
Qed.

(** X14: what a failed run logs.  With a session bound, the [catch]
    block of [executeCell] enqueues an [ERROR_OCCURRED] event carrying the
    error message and, as [code_snippet], the whole code of the cell,
    followed by a [RUN_RESULT] event with [success] false, no output
    length, the same error message, and [has_error] set exactly when the
    message is not empty. *)
Theorem executeCell_rejected_log now cell errorMessage w :
  reachable w ->
  truthy (sessionId (tracker w)) = true ->
  exists e1 e2,
    enqueued (executeCellRejected now cell errorMessage w)
    = enqueued w ++ [e1; e2] /\
    type e1 = ERROR_OCCURRED /\
    event_metadata e1 !! "error_message" = Some (VStr errorMessage) /\
    event_metadata e1 !! "code_snippet" = Some (VStr (code cell)) /\
    type e2 = RUN_RESULT /\
    event_metadata e2 !! "success" = Some (VBool false) /\
    event_metadata e2 !! "output_length" = Some (VNum 0) /\
    event_metadata e2 !! "error_message" = Some (VStr errorMessage) /\
    event_metadata e2 !! "has_error"
    = Some (VBool (bool_decide (errorMessage <> []))).
Proof.
  intros HI%Inv_reachable Hb. unfold executeCellRejected, trackError, trackRunResult.
  match goal with |- context [trackEvent now ERROR_OCCURRED ?md w] =>
    destruct (trackEvent_enqueues now ERROR_OCCURRED md w HI Hb)
      as (He1 & HI1 & Hb1);
    set (w1 := trackEvent now ERROR_OCCURRED md w) in *
  end.
  match goal with |- context [trackEvent now RUN_RESULT ?md w1] =>
    destruct (trackEvent_enqueues now RUN_RESULT md w1 HI1 Hb1) as (He2 & _)
  end.
  eexists _, _. split.
  { rewrite He2, He1, <- app_assoc. reflexivity. }
  split; [reflexivity|].
  rewrite !stamped_lookup by discriminate.
  split; [reflexivity|]. split; [reflexivity|]. split; [reflexivity|].
  split; [reflexivity|]. split; [reflexivity|]. split; [reflexivity|].
  destruct errorMessage; reflexivity.
Qed.

Lemma executeCell_rejected_log_witness :
  let w := worldAfter oneInFlight in
  let cell := newCell 5 in
  type <$> enqueued (executeCellRejected 700 cell (js "no such table") w)
  = (type <$> enqueued w) ++ [ERROR_OCCURRED; RUN_RESULT].
Proof.
  cbv zeta.
  assert (H : reachable (worldAfter oneInFlight)).
  { exists 0, oneInFlight. vm_compute. reflexivity. }
  destruct (executeCell_rejected_log 700 (newCell 5) (js "no such table") _ H
              eq_refl) as (e1 & e2 & He & T1 & _ & _ & T2 & _).
  rewrite He, !fmap_app. cbn [fmap list_fmap]. rewrite T1, T2. reflexivity.
Defined.

(** X15: what a successful run logs.  With a session bound, the code
    after the response enqueues, for an SQL cell, one event per tag set
    by the classifier on the cell's code, and then in every case one
    [RUN_RESULT] event with [success] true, [has_error] false and the
    length of the output (0 when there is none); a Python cell logs the
    [RUN_RESULT] alone. *)
Theorem executeCell_resolved_log toUpperCase now cell responseOutput w :
  reachable w ->
  truthy (sessionId (tracker w)) = true ->
  exists es e,
    enqueued (executeCellResolved toUpperCase now cell responseOutput w)
    = enqueued w ++ es ++ [e] /\
    type <$> es
    = match language cell with
      | sql => Classifier.positiveTags
                 (Classifier.complexity toUpperCase (code cell))
      | python => []
      end /\
    type e = RUN_RESULT /\
    event_metadata e !! "success" = Some (VBool true) /\
    event_metadata e !! "has_error" = Some (VBool false) /\
    event_metadata e !! "output_length"
    = Some (VNum (from_option jsLength 0 responseOutput)).
Proof.
  intros HI%Inv_reachable Hb. unfold executeCellResolved, trackRunResult.
  set (c := Classifier.complexity toUpperCase (code cell)).
  set (calls := [(Classifier.has_join c, TABLE_JOINED);
                 (Classifier.has_aggregate c, AGGREGATE_USED);
                 (Classifier.has_subquery c, SUBQUERY_USED);
                 (Classifier.has_groupby c, GROUPING_APPLIED);
                 (Classifier.has_where c, FILTER_APPLIED);
                 (Classifier.has_window c, WINDOW_FUNCTION_USED)]).
  assert (Hmid : exists w1 es,
    match language cell with
    | sql => (trackSQLComplexity toUpperCase now (code cell) w).2
    | python => w
    end = w1 /\ Inv w1 /\ truthy (sessionId (tracker w1)) = true /\
    enqueued w1 = enqueued w ++ es /\
    type <$> es = match language cell with
                  | sql => Classifier.positiveTags c
                  | python => []
                  end).
  { destruct (language cell).
    - exists w, []. rewrite app_nil_r.
      split; [reflexivity|]. split; [exact HI|]. split; [exact Hb|].
      split; reflexivity.
    - destruct (guardedCalls_effect now (code cell) calls w HI Hb)
        as (es & E & T & _).
      destruct (guardedCalls_inv now (code cell) calls w HI Hb) as (HI1 & Hb1).
      exists (guardedCalls calls now (code cell) w), es.
      split; [reflexivity|]. split; [exact HI1|]. split; [exact Hb1|].
      split; [exact E|]. rewrite T. unfold Classifier.positiveTags.
      subst calls. cbn [flat_map fst snd]. rewrite app_nil_r. reflexivity. }
  destruct Hmid as (w1 & es & -> & HI1 & Hb1 & He1 & T).
  match goal with |- context [trackEvent now RUN_RESULT ?md w1] =>
    destruct (trackEvent_enqueues now RUN_RESULT md w1 HI1 Hb1) as (He2 & _)
  end.
  exists es. eexists. split.
  { rewrite He2, He1, <- app_assoc. reflexivity. }
  split; [exact T|]. split; [reflexivity|].
  rewrite !stamped_lookup by discriminate.
  split; [reflexivity|]. split; [reflexivity|].
  destruct responseOutput; reflexivity.
Qed.

Lemma executeCell_resolved_log_witness :
  let w := worldAfter oneInFlight in
  let cell := withCode (js "select a from t join u where a > 1") (newCell 5) in
  type <$> enqueued (executeCellResolved Classifier.asciiToUpperCase 700 cell
                       (Some (js "3 rows")) w)
  = (type <$> enqueued w) ++ [TABLE_JOINED; FILTER_APPLIED; RUN_RESULT].
Proof.
  cbv zeta.
  assert (H : reachable (worldAfter oneInFlight)).
  { exists 0, oneInFlight. vm_compute. reflexivity. }
  destruct (executeCell_resolved_log Classifier.asciiToUpperCase 700
              (withCode (js "select a from t join u where a > 1") (newCell 5))
              (Some (js "3 rows")) _ H eq_refl)
    as (es & e & He & T & Te & _).
  rewrite He, !fmap_app. cbn [fmap list_fmap]. rewrite T, Te.
  vm_compute. reflexivity.
Defined.

(** X18: [updateCellCode] touches only the code of the cell it names.
    The ids, their order and every field other than [code] are as before;
    each cell with the given id has the new code and every other cell is
    unchanged; and for an id no cell has, neither the cells nor the
    tracker change. *)
Theorem updateCellCode_touches_only_code now target newCode cells w :
  let r := updateCellCode now target newCode cells w in
  id <$> r.1 = id <$> cells /\
  (fun c => (language c, output c, error c, executionCount c, rows c,
             columnNames c)) <$> r.1
  = (fun c => (language c, output c, error c, executionCount c, rows c,
               columnNames c)) <$> cells /\
  (forall i c, cells !! i = Some c -> id c = target ->
               r.1 !! i = Some (withCode newCode c)) /\
  (forall i c, cells !! i = Some c -> id c <> target -> r.1 !! i = Some c) /\
  (target ∉ id <$> cells -> r = (cells, w)).
Proof.
  cbv zeta. unfold updateCellCode. cbn [fst].
  split; [apply ids_setCellCode|]. split; [|split; [|split]].
  - unfold setCellCode. rewrite <- list_fmap_compose. apply list_fmap_ext.
    intros i c _. cbn. destruct (decide (id c = target)); reflexivity.
  - intros i c Hi Hid. unfold setCellCode. rewrite list_lookup_fmap, Hi.
    cbn. rewrite decide_True by exact Hid. reflexivity.
  - intros i c Hi Hid. unfold setCellCode. rewrite list_lookup_fmap, Hi.
    cbn. rewrite decide_False by exact Hid. reflexivity.
  - intros Hnot. f_equal.
    + unfold setCellCode. rewrite <- (list_fmap_id cells) at 2.
      apply list_fmap_ext. intros i c Hi. cbn.
      rewrite decide_False; [reflexivity|]. intros Hid. apply Hnot.
      apply list_elem_of_fmap. exists c. split; [symmetry; exact Hid|].
      eapply list_elem_of_lookup_2, Hi.
    + unfold findCell.
      destruct (list_find _ cells) as [[i c]|] eqn:Hfind; [|reflexivity].
      exfalso. apply list_find_Some in Hfind as (Hi & Hid & _).
      apply Hnot. apply list_elem_of_fmap. exists c.
      split; [symmetry; exact Hid|]. eapply list_elem_of_lookup_2, Hi.
Qed.

Lemma updateCellCode_touches_only_code_witness :
  let w := worldAfter oneInFlight in
  updateCellCode 700 (js "gone") (js "select 1") initialCells w
  = (initialCells, w) /\
  code <$> (updateCellCode 700 (js "1") (js "select 1") initialCells w).1
  = [js "select 1"].
Proof.
  cbv zeta.
  destruct (updateCellCode_touches_only_code 700 (js "gone") (js "select 1")
              initialCells (worldAfter oneInFlight)) as (_ & _ & _ & _ & Hnoop).
  destruct (updateCellCode_touches_only_code 700 (js "1") (js "select 1")
              initialCells (worldAfter oneInFlight)) as (_ & _ & Hset & _).
  cbv zeta in *. split.
  - apply Hnoop. vm_compute. intros H. inversion H as [|? ? ? H']; subst.
    inversion H'.
  - pose proof (Hset 0%nat _ eq_refl eq_refl) as H0.
    destruct (updateCellCode 700 (js "1") (js "select 1") initialCells
                (worldAfter oneInFlight)).1 as [|c0 [|c1 rest]] eqn:E;
      try discriminate.
    injection H0 as ->. reflexivity.
Defined.

(** X19: with no session bound, no tracking method records anything.
    When the session id is [null] or empty, the typed tracking methods,
    [trackSQLComplexity] and the logging of [executeCell] all return the
    state as it was; [trackSQLComplexity] still returns the tags. *)
Theorem unbound_client_records_nothing toUpperCase now w :
  truthy (sessionId (tracker w)) = false ->
  (forall code language,
      trackCodeEdit now code language w = w /\
      trackCodeRun now code language w = w) /\
  (forall success output error,
      trackRunResult now success output error w = w) /\
  (forall error context, trackError now error context w = w) /\
  (forall query,
      trackSQLComplexity toUpperCase now query w
      = (Classifier.complexity toUpperCase query, w)) /\
  (forall cell errorMessage,
      executeCellRejected now cell errorMessage w = w) /\
  (forall cell responseOutput,
      executeCellResolved toUpperCase now cell responseOutput w = w).
Proof.
  intros Hb.
  assert (Ht : forall ty md, trackEvent now ty md w = w).
  { intros ty md. apply trackEvent_unbound, Hb. }
  assert (Hg : forall query calls, guardedCalls calls now query w = w).
  { intros query calls. induction calls as [|[b ty] calls IH]; [reflexivity|].
    cbn [guardedCalls fold_left fst snd]. destruct b; [rewrite Ht|]; exact IH. }
  assert (Hsql : forall query,
    trackSQLComplexity toUpperCase now query w
    = (Classifier.complexity toUpperCase query, w)).
  { intros query. unfold trackSQLComplexity. f_equal.
    set (c := Classifier.complexity toUpperCase query).
    exact (Hg query [(Classifier.has_join c, TABLE_JOINED);
                     (Classifier.has_aggregate c, AGGREGATE_USED);
                     (Classifier.has_subquery c, SUBQUERY_USED);
                     (Classifier.has_groupby c, GROUPING_APPLIED);
                     (Classifier.has_where c, FILTER_APPLIED);
                     (Classifier.has_window c, WINDOW_FUNCTION_USED)]). }
  split; [intros; split; apply Ht|]. split; [intros; apply Ht|].
  split; [intros; apply Ht|]. split; [exact Hsql|]. split.
  - intros cell errorMessage. unfold executeCellRejected, trackError, trackRunResult.
    rewrite !Ht. reflexivity.
  - intros cell responseOutput. unfold executeCellResolved, trackRunResult.
    destruct (language cell); [|rewrite Hsql; cbn [snd]]; apply Ht.
Qed.

Lemma unbound_client_records_nothing_witness :
  let w := initialize [] 0 (initial 0) in
  sessionId (tracker w) = Some [] /\
  trackCodeRun 100 (js "select 1") (js "sql") w = w /\
  (trackSQLComplexity Classifier.asciiToUpperCase 100 (js "select 1") w).2 = w.
Proof.
  cbv zeta. split; [reflexivity|].
  destruct (unbound_client_records_nothing Classifier.asciiToUpperCase 100
              (initialize [] 0 (initial 0)) eq_refl)
    as (Hcode & _ & _ & Hsql & _).
  split; [apply Hcode|]. rewrite Hsql. reflexivity.
Defined.

End NotebookFacts.

(** ** The chart builder *)
Module ChartBuilderFacts.
Import ChartBuilder.

(** X16: what [toggleYColumn] does to the selection.  For a pie chart the
    selection becomes the toggled column alone.  Otherwise the toggled
    column is selected afterwards exactly when it was not before, every
    other column keeps its state, and a selection without repetitions
    stays without repetitions. *)
Theorem toggleYColumn_flips_membership chartType col prev :
  (chartType = pie -> toggleYColumn chartType col prev = [col]) /\
  (chartType <> pie ->
   (col ∈ toggleYColumn chartType col prev <-> col ∉ prev) /\
   (forall c, c <> col ->
              (c ∈ toggleYColumn chartType col prev <-> c ∈ prev)) /\
   (NoDup prev -> NoDup (toggleYColumn chartType col prev))).
Proof.
  split; [intros ->; reflexivity|]. intros Hpie.
  assert (Hshape : toggleYColumn chartType col prev
                   = if arrayIncludes prev col
                     then filter (fun c => c <> col) prev else prev ++ [col]).
  { destruct chartType; [reflexivity | reflexivity | contradiction]. }
  rewrite Hshape. unfold arrayIncludes. case_bool_decide as Hin.
  - split; [|split].
    + rewrite list_elem_of_filter. split; [intros (H & _); contradiction|].
      intros H. contradiction.
    + intros c Hc. rewrite list_elem_of_filter. tauto.
    + apply NoDup_filter.
  - split; [|split].
    + rewrite elem_of_app, list_elem_of_singleton. tauto.
    + intros c Hc. rewrite elem_of_app, list_elem_of_singleton. tauto.
    + intros Hnd. apply NoDup_app. split; [exact Hnd|].
      split; [|apply NoDup_singleton].
      intros x Hx ->%list_elem_of_singleton. contradiction.
Qed.

Lemma toggleYColumn_flips_membership_witness :
  toggleYColumn bar (js "age") [js "age"; js "city"] = [js "city"] /\
  (js "age" ∈ toggleYColumn bar (js "age") [js "city"]).
Proof.
  destruct (toggleYColumn_flips_membership bar (js "age") [js "city"])
    as (_ & H).
  destruct (H ltac:(discriminate)) as (Hin & _).
  split; [reflexivity|]. apply Hin.
  intros Hc. inversion Hc as [|? ? ? H']; subst. inversion H'.
Defined.

(** X17: toggling a column twice.  For a bar or line chart, toggling a
    column that was not selected twice gives the selection back
    unchanged; toggling a selected column twice removes every copy of it
    and puts it once at the end, so the column changes its place among
    the series. *)
Theorem toggleYColumn_twice chartType col prev :
  chartType <> pie ->
  (col ∉ prev ->
   toggleYColumn chartType col (toggleYColumn chartType col prev) = prev) /\
  (col ∈ prev ->
   toggleYColumn chartType col (toggleYColumn chartType col prev)
   = filter (fun c => c <> col) prev ++ [col]).
Proof.
  intros Hpie.
  assert (Hshape : forall l, toggleYColumn chartType col l
                   = if arrayIncludes l col
                     then filter (fun c => c <> col) l else l ++ [col]).
  { intros l. destruct chartType; [reflexivity | reflexivity | contradiction]. }
  rewrite !Hshape. unfold arrayIncludes. split; intros Hin.
  - rewrite (bool_decide_eq_false_2 _ Hin).
    rewrite bool_decide_eq_true_2
      by (apply elem_of_app; right; apply list_elem_of_singleton; reflexivity).
    rewrite filter_app, filter_cons_False, filter_nil, app_nil_r.
    2:{ intros H. apply H. reflexivity. }
    apply NotebookFacts.filter_all, Forall_forall. intros c Hc ->. contradiction.
  - rewrite (bool_decide_eq_true_2 _ Hin).
    rewrite bool_decide_eq_false_2; [reflexivity|].
    rewrite list_elem_of_filter. intros (H & _). apply H. reflexivity.
Qed.

Lemma toggleYColumn_twice_witness :
  toggleYColumn line (js "a") (toggleYColumn line (js "a") [js "a"; js "b"])
  = [js "b"; js "a"].
Proof.
  destruct (toggleYColumn_twice line (js "a") [js "a"; js "b"]
              ltac:(discriminate)) as (_ & H).
  rewrite H; [reflexivity | left].
Defined.

End ChartBuilderFacts.
